(** * DES block cipher core of crypto_algs/cpp/DES_encryption.cpp, and
      the number-theoretic functions of crypto_algs/cpp/rsa.cpp

    A shallow embedding of the bit-level core of the DES program: the
    constant tables, the helpers [apply_permutation], [circular_left_shift],
    [xor_bits], [s_box_substitution], the key schedule [generate_round_keys]
    and the two block routines [des_encrypt] and [des_decrypt].

    Data.  A [std::vector<bool>] is a [list bool]; an [int] is a [Z] (every
    value that occurs is far below 2^31, so no wrap-around is involved); an
    [int] array is a [list Z].

    Effects.  The C++ code indexes vectors with [operator[]] and builds
    iterator ranges without any check; any access outside a vector is
    undefined behaviour.  Every operation therefore returns an [option]:
    [Some v] is the value the code computes, [None] means the C++ execution
    left defined behaviour (an out-of-range read, write or iterator).  [None]
    is NOT an error value of the program: the source has no error channel.

    Scope.  [string_to_bits] and [bits_to_string] are conversion placeholders
    in the source (their bodies are elided).  The functions below take the
    bit vectors that [string_to_bits] stands for as arguments and return the
    bit vector handed to [bits_to_string].  Module [Text] adds the functions
    on strings with the two placeholders exactly as the source has them.

    The second part embeds [gcd], [mod_exp], [mod_inverse], [encrypt_string]
    and [decrypt_string] of rsa.cpp over checked machine arithmetic. *)

From Stdlib Require Import ZArith List Lia Znumtheory Zpow_facts.
From Equations Require Import Equations.
From stdpp Require Import base option list list_numbers strings.

Local Open Scope Z_scope.

(** ** Constant tables *)

Definition IP_TABLE : list Z :=
  [58; 50; 42; 34; 26; 18; 10; 2;
   60; 52; 44; 36; 28; 20; 12; 4;
   62; 54; 46; 38; 30; 22; 14; 6;
   64; 56; 48; 40; 32; 24; 16; 8;
   57; 49; 41; 33; 25; 17; 9; 1;
   59; 51; 43; 35; 27; 19; 11; 3;
   61; 53; 45; 37; 29; 21; 13; 5;
   63; 55; 47; 39; 31; 23; 15; 7].

Definition E_TABLE : list Z :=
  [32;  1;  2;  3;  4;  5;
    4;  5;  6;  7;  8;  9;
    8;  9; 10; 11; 12; 13;
   12; 13; 14; 15; 16; 17;
   16; 17; 18; 19; 20; 21;
   20; 21; 22; 23; 24; 25;
   24; 25; 26; 27; 28; 29;
   28; 29; 30; 31; 32;  1].

Definition P_TABLE : list Z :=
  [16;  7; 20; 21; 29; 12; 28; 17;
    1; 15; 23; 26;  5; 18; 31; 10;
    2;  8; 24; 14; 32; 27;  3;  9;
   19; 13; 30;  6; 22; 11;  4; 25].

Definition S_BOXES : list (list (list Z)) :=
  [ (* S1 *)
    [[14; 4; 13; 1; 2; 15; 11; 8; 3; 10; 6; 12; 5; 9; 0; 7];
     [0; 15; 7; 4; 14; 2; 13; 1; 10; 6; 12; 11; 9; 5; 3; 8];
     [4; 1; 14; 8; 13; 6; 2; 11; 15; 12; 9; 7; 3; 10; 5; 0];
     [15; 12; 8; 2; 4; 9; 1; 7; 5; 11; 3; 14; 10; 0; 6; 13]];
    (* S2 *)
    [[15; 1; 8; 14; 6; 11; 3; 4; 9; 7; 2; 13; 12; 0; 5; 10];
     [3; 13; 4; 7; 15; 2; 8; 14; 12; 0; 1; 10; 6; 9; 11; 5];
     [0; 14; 7; 11; 10; 4; 13; 1; 5; 8; 12; 6; 9; 3; 2; 15];
     [13; 8; 10; 1; 3; 15; 4; 2; 11; 6; 7; 12; 0; 5; 14; 9]];
    (* S3 *)
    [[10; 0; 9; 14; 6; 3; 15; 5; 1; 13; 12; 7; 11; 4; 2; 8];
     [13; 7; 0; 9; 3; 4; 6; 10; 2; 8; 5; 14; 12; 11; 15; 1];
     [13; 6; 4; 9; 8; 15; 3; 0; 11; 1; 2; 12; 5; 10; 14; 7];
     [1; 10; 13; 0; 6; 9; 8; 7; 4; 15; 14; 3; 11; 5; 2; 12]];
    (* S4 *)
    [[7; 13; 14; 3; 0; 6; 9; 10; 1; 2; 8; 5; 11; 12; 4; 15];
     [13; 8; 11; 5; 6; 15; 0; 3; 4; 7; 2; 12; 1; 10; 14; 9];
     [10; 6; 9; 0; 12; 11; 7; 13; 15; 1; 3; 14; 5; 2; 8; 4];
     [3; 15; 0; 6; 10; 1; 13; 8; 9; 4; 5; 11; 12; 7; 2; 14]];
    (* S5 *)
    [[2; 12; 4; 1; 7; 10; 11; 6; 8; 5; 3; 15; 13; 0; 14; 9];
     [14; 11; 2; 12; 4; 7; 13; 1; 5; 0; 15; 10; 3; 9; 8; 6];
     [4; 2; 1; 11; 10; 13; 7; 8; 15; 9; 12; 5; 6; 3; 0; 14];
     [11; 8; 12; 7; 1; 14; 2; 13; 6; 15; 0; 9; 10; 4; 5; 3]];
    (* S6 *)
    [[12; 1; 10; 15; 9; 2; 6; 8; 0; 13; 3; 4; 14; 7; 5; 11];
     [10; 15; 4; 2; 7; 12; 9; 5; 6; 1; 13; 14; 0; 11; 3; 8];
     [9; 14; 15; 5; 2; 8; 12; 3; 7; 0; 4; 10; 1; 13; 11; 6];
     [4; 3; 2; 12; 9; 5; 15; 10; 11; 14; 1; 7; 6; 0; 8; 13]];
    (* S7 *)
    [[4; 11; 2; 14; 15; 0; 8; 13; 3; 12; 9; 7; 5; 10; 6; 1];
     [13; 0; 11; 7; 4; 9; 1; 10; 14; 3; 5; 12; 2; 15; 8; 6];
     [1; 4; 11; 13; 12; 3; 7; 14; 10; 15; 6; 8; 0; 5; 9; 2];
     [6; 11; 13; 8; 1; 4; 10; 7; 9; 5; 0; 15; 14; 2; 3; 12]];
    (* S8 *)
    [[13; 2; 8; 4; 6; 15; 11; 1; 10; 9; 3; 14; 5; 0; 12; 7];
     [1; 15; 13; 8; 10; 3; 7; 4; 12; 5; 6; 11; 0; 14; 9; 2];
     [7; 11; 4; 1; 9; 12; 14; 2; 0; 6; 10; 13; 15; 3; 5; 8];
     [2; 1; 14; 7; 4; 10; 8; 13; 15; 12; 9; 0; 3; 5; 6; 11]] ].

Definition PC1_TABLE : list Z :=
  [57; 49; 41; 33; 25; 17; 9; 1; 58; 50; 42; 34; 26; 18;
   10; 2; 59; 51; 43; 35; 27; 19; 11; 3; 60; 52; 44; 36;
   63; 55; 47; 39; 31; 23; 15; 7; 62; 54; 46; 38; 30; 22;
   14; 6; 61; 53; 45; 37; 29; 21; 13; 5; 28; 20; 12; 4].

Definition PC2_TABLE : list Z :=
  [14; 17; 11; 24; 1; 5; 3; 28; 15; 6; 21; 10;
   23; 19; 12; 4; 26; 8; 16; 7; 27; 20; 13; 2;
   41; 52; 31; 37; 47; 55; 30; 40; 51; 45; 33; 48;
   44; 49; 39; 56; 34; 53; 46; 42; 50; 36; 29; 32].

Definition SHIFT_SCHEDULE : list Z :=
  [1; 1; 2; 2; 2; 2; 2; 2; 1; 2; 2; 2; 2; 2; 2; 1].

Definition IP_INV_TABLE : list Z :=
  [40; 8; 48; 16; 56; 24; 64; 32; 39; 7; 47; 15; 55; 23; 63; 31;
   38; 6; 46; 14; 54; 22; 62; 30; 37; 5; 45; 13; 53; 21; 61; 29;
   36; 4; 44; 12; 52; 20; 60; 28; 35; 3; 43; 11; 51; 19; 59; 27;
   34; 2; 42; 10; 50; 18; 58; 26; 33; 1; 41; 9; 49; 17; 57; 25].

(** ** Vector primitives of the C++ code *)

(** [v[k]] for an [int] index [k]. *)
Definition vec_get {A} (v : list A) (k : Z) : option A :=
  if (0 <=? k)%Z then v !! Z.to_nat k else None.

(** [v[k] = x]. *)
Definition vec_set {A} (v : list A) (k : nat) (x : A) : option (list A) :=
  if (k <? length v)%nat then Some (<[k:=x]> v) else None.

(** [std::vector<bool> r(v.begin() + lo, v.begin() + hi)]. *)
Definition vec_range {A} (v : list A) (lo hi : nat) : option (list A) :=
  if ((lo <=? hi)%nat && (hi <=? length v)%nat)%bool
  then Some (take (hi - lo) (drop lo v)) else None.

(** [std::copy(src.begin(), src.end(), dst.begin() + off)]. *)
Definition vec_copy {A} (src dst : list A) (off : nat) : option (list A) :=
  if (off + length src <=? length dst)%nat
  then Some (take off dst ++ src ++ drop (off + length src) dst) else None.

(** [for (int i = lo; i < lo + n; ++i) body]: the loop state is threaded
    through the [n] iterations. *)
Fixpoint for_loop {S : Type} (n : nat) (i : nat)
    (body : nat -> S -> option S) (s : S) : option S :=
  match n with
  | O => Some s
  | Datatypes.S n' => s' ← body i s; for_loop n' (Datatypes.S i) body s'
  end.

(** ** Helper functions *)

Definition apply_permutation (input : list bool) (table : list Z)
    (table_size : nat) : option (list bool) :=
  for_loop table_size 0
    (fun i output =>
       t ← table !! i;
       b ← vec_get input (t - 1);
       vec_set output i b)
    (replicate table_size false).

Definition circular_left_shift (input : list bool) (shift_amount : Z)
    : option (list bool) :=
  if ((0 <=? shift_amount) && (shift_amount <=? Z.of_nat (length input)))%bool
  then Some (drop (Z.to_nat shift_amount) input ++
             take (Z.to_nat shift_amount) input)
  else None.

Definition xor_bits (a b : list bool) : option (list bool) :=
  for_loop (length a) 0
    (fun i result =>
       x ← a !! i;
       y ← b !! i;
       vec_set result i (xorb x y))
    (replicate (length a) false).

(** [row] and [col] of one 6-bit S-box input, as the code computes them. *)
Definition s_box_row (s_box_input : list bool) : option Z :=
  b0 ← s_box_input !! 0%nat;
  b5 ← s_box_input !! 5%nat;
  Some (Z.lor (Z.shiftl (Z.b2z b0) 1) (Z.b2z b5)).

Definition s_box_col (s_box_input : list bool) : option Z :=
  b1 ← s_box_input !! 1%nat;
  b2 ← s_box_input !! 2%nat;
  b3 ← s_box_input !! 3%nat;
  b4 ← s_box_input !! 4%nat;
  Some (Z.lor (Z.lor (Z.lor (Z.shiftl (Z.b2z b1) 3) (Z.shiftl (Z.b2z b2) 2))
                     (Z.shiftl (Z.b2z b3) 1)) (Z.b2z b4)).

(** [S_BOXES[i][row][col]]. *)
Definition s_box_lookup (i : nat) (row col : Z) : option Z :=
  box ← S_BOXES !! i;
  r ← vec_get box row;
  vec_get r col.

(** [(val >> (3 - j)) & 1], converted to [bool]. *)
Definition s_box_bit (val : Z) (j : nat) : bool :=
  negb (Z.land (Z.shiftr val (3 - Z.of_nat j)) 1 =? 0).

(** Body of the loop over the eight S-boxes. *)
Definition s_box_step (input : list bool) (i : nat) (output : list bool)
    : option (list bool) :=
  s_box_input ← vec_range input (i * 6) ((i + 1) * 6);
  row ← s_box_row s_box_input;
  col ← s_box_col s_box_input;
  s_box_output_val ← s_box_lookup i row col;
  for_loop 4 0
    (fun j output => vec_set output (i * 4 + j) (s_box_bit s_box_output_val j))
    output.

Definition s_box_substitution (input : list bool) : option (list bool) :=
  for_loop 8 0 (s_box_step input) (replicate 32 false).

(** ** Key generation *)

Record key_state := KeyState {
  c_half : list bool;
  d_half : list bool;
  round_keys : list (list bool)
}.

(** Body of the 16-round loop of [generate_round_keys]. *)
Definition key_round (i : nat) (st : key_state) : option key_state :=
  sh ← SHIFT_SCHEDULE !! i;
  c ← circular_left_shift (c_half st) sh;
  d ← circular_left_shift (d_half st) sh;
  combined_key ← vec_copy c (replicate 56 false) 0;
  combined_key ← vec_copy d combined_key 28;
  rk ← apply_permutation combined_key PC2_TABLE 48;
  rks ← vec_set (round_keys st) i rk;
  Some (KeyState c d rks).

(** State of [generate_round_keys] before the loop: C0, D0 and 16 empty
    round keys. *)
Definition key_init (master_key_bits : list bool) : option key_state :=
  pc1_key ← apply_permutation master_key_bits PC1_TABLE 56;
  c ← vec_range pc1_key 0 28;
  d ← vec_range pc1_key 28 (length pc1_key);
  Some (KeyState c d (replicate 16 [])).

(** State of [generate_round_keys] when the loop has finished. *)
Definition key_schedule (master_key_bits : list bool) : option key_state :=
  st ← key_init master_key_bits;
  for_loop 16 0 key_round st.

Definition generate_round_keys (master_key_bits : list bool)
    : option (list (list bool)) :=
  round_keys <$> key_schedule master_key_bits.

(** ** Encryption *)

(** Body of the 16-round loop of [des_encrypt]; the state is
    [(left_half, right_half)]. *)
Definition encrypt_round (round_keys : list (list bool)) (i : nat)
    (st : list bool * list bool) : option (list bool * list bool) :=
  let '(left_half, right_half) := st in
  let temp_right_half := right_half in
  expanded_right ← apply_permutation right_half E_TABLE 48;
  rk ← round_keys !! i;
  xored_expanded ← xor_bits expanded_right rk;
  s_box_output ← s_box_substitution xored_expanded;
  p_box_output ← apply_permutation s_box_output P_TABLE 32;
  right_half ← xor_bits left_half p_box_output;
  Some (temp_right_half, right_half).

(** Steps 3 to 7 of [des_encrypt]: the block transform for given round
    keys. *)
Definition des_encrypt_rounds (block : list bool)
    (round_keys : list (list bool)) : option (list bool) :=
  block ← apply_permutation block IP_TABLE 64;
  left_half ← vec_range block 0 32;
  right_half ← vec_range block 32 (length block);
  '(left_half, right_half) ← for_loop 16 0 (encrypt_round round_keys)
                                (left_half, right_half);
  combined_block ← vec_copy right_half (replicate 64 false) 0;
  combined_block ← vec_copy left_half combined_block 32;
  apply_permutation combined_block IP_INV_TABLE 64.

Definition des_encrypt (block master_key_bits : list bool)
    : option (list bool) :=
  round_keys ← generate_round_keys master_key_bits;
  des_encrypt_rounds block round_keys.

(** ** Decryption *)

(** Body of the 16-round loop of [des_decrypt]. *)
Definition decrypt_round (round_keys : list (list bool)) (i : nat)
    (st : list bool * list bool) : option (list bool * list bool) :=
  let '(left_half, right_half) := st in
  let temp_right_half := right_half in
  expanded_right ← apply_permutation right_half E_TABLE 48;
  rk ← round_keys !! i;
  xored_expanded ← xor_bits expanded_right rk;
  s_box_output ← s_box_substitution xored_expanded;
  p_box_output ← apply_permutation s_box_output P_TABLE 32;
  right_half ← xor_bits left_half p_box_output;
  Some (temp_right_half, right_half).

(** The statements of [des_decrypt] after the round keys have been
    reversed. *)
Definition des_decrypt_rounds (block : list bool)
    (round_keys : list (list bool)) : option (list bool) :=
  block ← apply_permutation block IP_TABLE 64;
  left_half ← vec_range block 0 32;
  right_half ← vec_range block 32 (length block);
  '(left_half, right_half) ← for_loop 16 0 (decrypt_round round_keys)
                                (left_half, right_half);
  combined_block ← vec_copy right_half (replicate 64 false) 0;
  combined_block ← vec_copy left_half combined_block 32;
  apply_permutation combined_block IP_INV_TABLE 64.

Definition des_decrypt (block master_key_bits : list bool)
    : option (list bool) :=
  round_keys ← generate_round_keys master_key_bits;
  let round_keys := reverse round_keys in
  des_decrypt_rounds block round_keys.

(** ** Writing published test vectors *)

(** The [n] low bits of [z], most significant first. *)
Definition bits_of_Z (n : nat) (z : Z) : list bool :=
  map (fun i => Z.testbit z (Z.of_nat (n - 1 - i))) (seq 0 n).

(** ** Notions used in the statements and proofs *)

(** The bit that [apply_permutation] stores at position [i]. *)
Definition permuted_bit (input : list bool) (table : list Z) (i : nat)
    : option bool :=
  t ← table !! i; vec_get input (t - 1).

Definition xor_bit (a b : list bool) (i : nat) : option bool :=
  x ← a !! i; y ← b !! i; Some (xorb x y).

Definition table_in_range (table : list Z) (input_length : Z) : Prop :=
  Forall (λ t, 1 ≤ t ≤ input_length) table.

(** Each table with the length of the input it is applied to and its own
    size: IP and its inverse map 64 bits to 64, PC-1 takes 56 bits from the
    64-bit key, PC-2 takes 48 bits from the 56-bit shifted key, E expands 32
    bits to 48, P permutes 32 bits. *)
Definition declared_tables : list (list Z * nat * nat) :=
  [(IP_TABLE, 64%nat, 64%nat); (IP_INV_TABLE, 64%nat, 64%nat);
   (PC1_TABLE, 64%nat, 56%nat); (PC2_TABLE, 56%nat, 48%nat);
   (E_TABLE, 32%nat, 48%nat); (P_TABLE, 32%nat, 32%nat)].

(** The function of the right half and the round key that is XORed into
    the left half. *)
Definition round_function (right_half rk : list bool) : option (list bool) :=
  expanded_right ← apply_permutation right_half E_TABLE 48;
  xored_expanded ← xor_bits expanded_right rk;
  s_box_output ← s_box_substitution xored_expanded;
  apply_permutation s_box_output P_TABLE 32.

Definition feistel_step (rk : list bool) (st : list bool * list bool)
    : option (list bool * list bool) :=
  p ← round_function st.2 rk;
  r ← xor_bits st.1 p;
  Some (st.2, r).

Fixpoint feistel_rounds (rks : list (list bool)) (st : list bool * list bool)
    : option (list bool * list bool) :=
  match rks with
  | [] => Some st
  | rk :: rks => st' ← feistel_step rk st; feistel_rounds rks st'
  end.

Definition half_pair (st : list bool * list bool) : Prop :=
  length st.1 = 32%nat ∧ length st.2 = 32%nat.

(** ** The substitution step in the words of the specification *)

(** Bit [k] of a chunk as a number. *)
Definition chunk_bit (chunk : list bool) (k : nat) : Z :=
  Z.b2z (nth k chunk false).

(** Row index: bit 0 is the high bit, bit 5 the low bit. *)
Definition spec_row (chunk : list bool) : Z :=
  2 * chunk_bit chunk 0 + chunk_bit chunk 5.

(** Column index: bits 1 to 4, bit 1 highest. *)
Definition spec_col (chunk : list bool) : Z :=
  8 * chunk_bit chunk 1 + 4 * chunk_bit chunk 2 + 2 * chunk_bit chunk 3
  + chunk_bit chunk 4.

(** The table entry [S_BOXES[j][row][col]]. *)
Definition spec_value (j : nat) (chunk : list bool) : Z :=
  nth (Z.to_nat (spec_col chunk))
      (nth (Z.to_nat (spec_row chunk)) (nth j S_BOXES []) []) 0.

(** Output of S-box [j] on one 6-bit chunk: the entry, most significant
    bit first. *)
Definition spec_s_box_chunk (j : nat) (chunk : list bool) : list bool :=
  let val := spec_value j chunk in
  [Z.testbit val 3; Z.testbit val 2; Z.testbit val 1; Z.testbit val 0].

(** Chunk [j] of the 48-bit input. *)
Definition spec_chunk (input : list bool) (j : nat) : list bool :=
  take 6 (drop (6 * j) input).

(** The eight consecutive 6-bit chunks, substituted and concatenated. *)
Definition spec_substitute (input : list bool) : list bool :=
  concat (map (λ j, spec_s_box_chunk j (spec_chunk input j)) (seq 0 8)).

Definition spec_bit (j : nat) (chunk : list bool) (t : nat) : bool :=
  nth t (spec_s_box_chunk j chunk) false.

(** ** Tactics *)

(** Replaces a list of known length by that many variables. *)
Ltac explode l H :=
  repeat (destruct l as [|? l]; [discriminate H|];
          simpl in H; apply Nat.succ_inj in H);
  destruct l; [clear H|discriminate H].

(** ** Notions used in the further properties *)

(** The shifts of a list applied one after the other with
    [circular_left_shift]. *)
Fixpoint shift_all (shifts : list Z) (v : list bool) : option (list bool) :=
  match shifts with
  | [] => Some v
  | s :: shifts => v' ← circular_left_shift v s; shift_all shifts v'
  end.

(** Bitwise complement of a vector. *)
Definition complement (v : list bool) : list bool := negb <$> v.

Definition complement_pair (st : list bool * list bool)
    : list bool * list bool :=
  (complement st.1, complement st.2).

(** The table entry that [s_box_substitution] looks up for S-box [i] on one
    6-bit chunk. *)
Definition s_box_value (i : nat) (chunk : list bool) : option Z :=
  row ← s_box_row chunk;
  col ← s_box_col chunk;
  s_box_lookup i row col.

(** Positions (from 0) of the eight parity bits of a 64-bit key. *)
Definition parity_positions : list nat :=
  [7; 15; 23; 31; 39; 47; 55; 63]%nat.

(** ** The functions on strings, as the source has them

    [string_to_bits] declares an empty vector and returns it, and
    [bits_to_string] declares an empty string and returns it: the
    conversion code itself is not there.  The three functions on strings
    are the bit-level functions above applied to what these two return. *)

Module Text.

Definition string_to_bits (text : String.string) : list bool := [].

Definition bits_to_string (bits : list bool) : String.string :=
  String.EmptyString.

Definition generate_round_keys (master_key_hex : String.string)
    : option (list (list bool)) :=
  generate_round_keys (string_to_bits master_key_hex).

Definition des_encrypt (plaintext key_hex : String.string)
    : option String.string :=
  bits_to_string <$> des_encrypt (string_to_bits plaintext)
                                 (string_to_bits key_hex).

Definition des_decrypt (ciphertext key_hex : String.string)
    : option String.string :=
  bits_to_string <$> des_decrypt (string_to_bits ciphertext)
                                 (string_to_bits key_hex).

End Text.

(** * rsa.cpp: the number-theoretic functions

    An [int] is a 32-bit and a [long long] a 64-bit signed integer, both
    modelled as [Z].  Signed overflow, division by zero and the quotient
    [INT_MIN / -1] are undefined behaviour in C++: an operation of width [w]
    returns [None] when its mathematical result does not fit in [w] bits or
    when it divides by zero.  [/] and [%] truncate towards zero ([Z.quot],
    [Z.rem]).  The [while] loops are defined by well-founded recursion on a
    measure that each iteration decreases, so they are total functions. *)

(** [z] is representable as a [w]-bit signed integer. *)
Definition fits (w z : Z) : bool :=
  (- 2 ^ (w - 1) <=? z) && (z <? 2 ^ (w - 1)).

Definition checked (w z : Z) : option Z :=
  if fits w z then Some z else None.

Definition s_add (w a b : Z) : option Z := checked w (a + b).

Definition s_sub (w a b : Z) : option Z := checked w (a - b).

Definition s_mul (w a b : Z) : option Z := checked w (a * b).

Definition s_div (w a b : Z) : option Z :=
  if b =? 0 then None else checked w (Z.quot a b).

Definition s_rem (w a b : Z) : option Z :=
  if b =? 0 then None
  else if fits w (Z.quot a b) then Some (Z.rem a b) else None.

(** Keeps the equation [x = y] when matching on [x]. *)
Definition inspect {A : Type} (x : A) : {y : A | x = y} := exist _ x eq_refl.

(** [int gcd(int a, int b)]: [while (b != 0) { tmp = b; b = a % b; a = tmp; }]. *)
Equations? gcd (a b : Z) : option Z by wf (Z.abs_nat b) lt :=
  gcd a b with Z.eq_dec b 0 := {
    | left _ => Some a
    | right _ with inspect (s_rem 32 a b) := {
      | exist _ (Some r) _ => gcd b r
      | exist _ None _ => None } }.
Proof.
  unfold s_rem in e. destruct (b =? 0); [done|].
  destruct (fits 32 (Z.quot a b)); [|done]. injection e as <-.
  pose proof (Z.rem_bound_abs a b n). lia.
Qed.

(** Body of the loop of [mod_exp]: the new [result], [base] and [exp]. *)
Definition mod_exp_body (result base exp modulus : Z) : option (Z * Z * Z) :=
  result ← (if Z.rem exp 2 =? 1
            then p ← s_mul 64 result base; s_rem 64 p modulus
            else Some result);
  let exp := Z.shiftr exp 1 in
  p ← s_mul 64 base base;
  base ← s_rem 64 p modulus;
  Some (result, base, exp).

(** The loop [while (exp > 0)] of [mod_exp]. *)
Equations? mod_exp_loop (result base exp modulus : Z) : option Z
    by wf (Z.to_nat exp) lt :=
  mod_exp_loop result base exp modulus with Z_lt_dec 0 exp := {
    | right _ => Some result
    | left _ with inspect (mod_exp_body result base exp modulus) := {
      | exist _ (Some (result', base', exp')) _ =>
          mod_exp_loop result' base' exp' modulus
      | exist _ None _ => None } }.
Proof.
  unfold mod_exp_body in e.
  destruct (if Z.rem exp 2 =? 1 then _ else _); simpl in e; [|done].
  destruct (s_mul 64 base base); simpl in e; [|done].
  destruct (s_rem 64 _ modulus); simpl in e; [|done].
  injection e as _ _ <-.
  rewrite Z.shiftr_div_pow2 by lia. change (2 ^ 1) with 2.
  apply Z2Nat.inj_lt; [apply Z.div_pos; lia|lia|].
  apply Z.div_lt; lia.
Qed.

(** [long long mod_exp(long long base, long long exp, long long mod)]. *)
Definition mod_exp (base exp modulus : Z) : option Z :=
  let result := 1 in
  base ← s_rem 64 base modulus;
  mod_exp_loop result base exp modulus.

(** Body of the loop of [mod_inverse]: the new [t], [newt], [r], [newr]. *)
Definition mod_inverse_body (t newt r newr : Z) : option (Z * Z * Z * Z) :=
  quotient ← s_div 32 r newr;
  let temp := newt in
  p ← s_mul 32 quotient newt;
  newt ← s_sub 32 t p;
  let t := temp in
  let temp := newr in
  p ← s_mul 32 quotient newr;
  newr ← s_sub 32 r p;
  let r := temp in
  Some (t, newt, r, newr).

(** The loop [while (newr != 0)] of [mod_inverse]. *)
Equations? mod_inverse_loop (t newt r newr : Z) : option (Z * Z * Z * Z)
    by wf (Z.abs_nat newr) lt :=
  mod_inverse_loop t newt r newr with Z.eq_dec newr 0 := {
    | left _ => Some (t, newt, r, newr)
    | right _ with inspect (mod_inverse_body t newt r newr) := {
      | exist _ (Some (t', newt', r', newr')) _ =>
          mod_inverse_loop t' newt' r' newr'
      | exist _ None _ => None } }.
Proof.
  unfold mod_inverse_body, s_div, s_mul, s_sub, checked in e.
  destruct (newr =? 0); [done|].
  destruct (fits 32 (Z.quot r newr)); simpl in e; [|done].
  destruct (fits 32 (Z.quot r newr * newt)); simpl in e; [|done].
  destruct (fits 32 (t - _)); simpl in e; [|done].
  destruct (fits 32 (Z.quot r newr * newr)); simpl in e; [|done].
  destruct (fits 32 (r - _)); simpl in e; [|done].
  injection e as _ _ _ <-.
  pose proof (Z.rem_bound_abs r newr n).
  pose proof (Z.quot_rem' r newr). lia.
Qed.

(** [int mod_inverse(int e, int phi)]. *)
Definition mod_inverse (e phi : Z) : option Z :=
  '(t, newt, r, newr) ← mod_inverse_loop 0 1 phi e;
  if 1 <? r then Some (-1)
  else if t <? 0 then s_add 32 t phi
  else Some t.

(** [static_cast<int>(ch)] for a [char], taken as a signed 8-bit type. *)
Definition char_to_int (ch : Ascii.ascii) : Z :=
  let n := Z.of_N (Ascii.N_of_ascii ch) in
  if n <? 128 then n else n - 256.

(** [static_cast<char>(m)] for a [long long]. *)
Definition int_to_char (m : Z) : Ascii.ascii :=
  Ascii.ascii_of_N (Z.to_N (m mod 256)).

Definition encrypt_string (message : String.string) (e n : Z)
    : option (list Z) :=
  mapM (λ ch, let m := char_to_int ch in mod_exp m e n)
       (String.list_ascii_of_string message).

Definition decrypt_string (encrypted : list Z) (d n : Z)
    : option String.string :=
  String.string_of_list_ascii <$>
    mapM (λ c, m ← mod_exp c d n; Some (int_to_char m)) encrypted.

(** ** Notions used in the properties of rsa.cpp *)

(** What the loop of [mod_inverse] keeps true of [t], [newt], [r], [newr]
    when started from [0], [1], [phi], [e]. *)
Definition inverse_invariant (e phi t newt r newr : Z) : Prop :=
  0 ≤ newr < r ∧ r ≤ phi ∧ Z.abs t * r ≤ phi ∧
  (t ≤ 0 ≤ newt ∨ newt ≤ 0 ≤ t) ∧
  Z.abs newt * r + Z.abs t * newr = phi ∧
  (phi | t * e - r) ∧ (phi | newt * e - newr) ∧
  Z.gcd r newr = Z.gcd phi e.

(** A character of the 7-bit ASCII range. *)
Definition seven_bit (ch : Ascii.ascii) : Prop :=
  (Ascii.N_of_ascii ch < 128)%N.

(** * Lemmas *)

(** ** Loops that fill a vector front to back *)

Section loops.
Context {S : Type}.

Lemma for_loop_ext (body body' : nat → S → option S) n : ∀ k s,
  (∀ i s, (k ≤ i < k + n)%nat → body i s = body' i s) →
  for_loop n k body s = for_loop n k body' s.
Proof.
  induction n as [|n IH]; intros k s Hext; simpl; [done|].
  rewrite Hext by lia. destruct (body' k s) as [s'|]; simpl; [|done].
  apply IH. intros i s0 Hi. apply Hext. lia.
Qed.
End loops.

Section fill.
Context {A : Type} (f : nat → option A).

Lemma vec_set_Some (v : list A) k x :
  (k < length v)%nat → vec_set v k x = Some (<[k:=x]> v).
Proof.
  intros Hk. unfold vec_set.
  destruct (Nat.ltb_spec k (length v)); [done|lia].
Qed.

Lemma vec_set_None (v : list A) k x :
  (length v ≤ k)%nat → vec_set v k x = None.
Proof.
  intros Hk. unfold vec_set.
  destruct (Nat.ltb_spec k (length v)); [lia|done].
Qed.

(** Writing [f k], [f (k+1)], ... into the slots after [pre]. *)
Lemma fill_loop n : ∀ k (pre rest : list A),
  length pre = k → length rest = n →
  for_loop n k (λ i out, x ← f i; vec_set out i x) (pre ++ rest)
  = l ← mapM f (seq k n); Some (pre ++ l).
Proof.
  induction n as [|n IH]; intros k pre rest Hpre Hrest.
  - destruct rest; [|done]. done.
  - destruct rest as [|r rest]; [done|]. simpl in Hrest.
    cbn [for_loop seq mapM]. destruct (f k) as [x|]; simpl; [|done].
    rewrite vec_set_Some by (rewrite length_app; simpl; lia). simpl.
    replace (<[k:=x]> (pre ++ r :: rest)) with ((pre ++ [x]) ++ rest).
    + rewrite IH by (rewrite ?length_app; simpl; lia).
      destruct (mapM f (seq (Datatypes.S k) n)) as [l|]; simpl; [|done].
      by rewrite <- app_assoc.
    + rewrite <- app_assoc. simpl. subst k.
      replace (length pre) with (length pre + 0)%nat by lia.
      by rewrite insert_app_r.
Qed.

Lemma fill_loop_0 n d :
  for_loop n 0 (λ i out, x ← f i; vec_set out i x) (replicate n d)
  = mapM f (seq 0 n).
Proof.
  change (replicate n d) with ([] ++ replicate n d).
  rewrite fill_loop by (rewrite ?length_replicate; done).
  by destruct (mapM f (seq 0 n)).
Qed.

Lemma mapM_seq_Some n : ∀ k (l : list A),
  mapM f (seq k n) = Some l ↔
  length l = n ∧ ∀ i, (i < n)%nat → f (k + i)%nat = l !! i.
Proof.
  induction n as [|n IH]; intros k l; cbn [seq mapM].
  - split.
    + intros [= <-]. split; [done|]. intros; lia.
    + intros [Hl _]. destruct l; [done|discriminate].
  - split.
    + intros H. destruct (f k) as [x|] eqn:Hx; simpl in H; [|done].
      destruct (mapM f (seq (Datatypes.S k) n)) as [l'|] eqn:Hl'; simpl in H; [|done].
      injection H as <-. apply IH in Hl' as [Hlen Hl']. split; [simpl; lia|].
      intros [|i] Hi; simpl.
      * by rewrite Nat.add_0_r.
      * rewrite <- Hl' by lia. f_equal. lia.
    + intros [Hlen Hl]. destruct l as [|x l]; [done|].
      specialize (Hl 0%nat ltac:(lia)) as Hx. rewrite Nat.add_0_r in Hx.
      simpl in Hx. rewrite Hx. simpl.
      assert (mapM f (seq (Datatypes.S k) n) = Some l) as ->; [|done].
      apply IH. split; [simpl in Hlen; lia|].
      intros i Hi. specialize (Hl (Datatypes.S i) ltac:(lia)). simpl in Hl.
      rewrite <- Hl. f_equal. lia.
Qed.
End fill.

(** ** [apply_permutation] and [xor_bits] position by position *)

Lemma apply_permutation_mapM input table n :
  apply_permutation input table n = mapM (permuted_bit input table) (seq 0 n).
Proof.
  unfold apply_permutation. rewrite <- (fill_loop_0 _ n false).
  apply for_loop_ext. intros i out _. unfold permuted_bit.
  by destruct (table !! i) as [t|]; simpl; [destruct (vec_get input (t - 1))|].
Qed.

Lemma apply_permutation_Some input table n output :
  apply_permutation input table n = Some output ↔
  length output = n ∧
  ∀ i, (i < n)%nat → permuted_bit input table i = output !! i.
Proof. rewrite apply_permutation_mapM. apply mapM_seq_Some. Qed.

Lemma vec_get_in_range {A} (v : list A) (t : Z) :
  1 ≤ t ≤ Z.of_nat (length v) → is_Some (vec_get v (t - 1)).
Proof.
  intros Ht. unfold vec_get. destruct (Z.leb_spec 0 (t - 1)); [|lia].
  apply lookup_lt_is_Some. lia.
Qed.

(** A table whose entries all lie in [1, length input] never makes
    [apply_permutation] read outside [input]. *)
Lemma apply_permutation_in_range input table n :
  (n ≤ length table)%nat →
  Forall (λ t, 1 ≤ t ≤ Z.of_nat (length input)) table →
  ∃ output, apply_permutation input table n = Some output ∧ length output = n.
Proof.
  intros Hn Hall.
  assert (∀ i, (i < n)%nat → is_Some (permuted_bit input table i)) as Hbit.
  { intros i Hi. unfold permuted_bit.
    destruct (lookup_lt_is_Some_2 table i ltac:(lia)) as [t Ht]. rewrite Ht. simpl.
    apply vec_get_in_range. by eapply (Forall_lookup_1 _ _ _ _ Hall). }
  destruct (mapM (permuted_bit input table) (seq 0 n)) as [output|] eqn:Hm.
  - exists output. rewrite apply_permutation_mapM. split; [done|].
    apply length_mapM in Hm. by rewrite length_seq in Hm.
  - apply mapM_None in Hm. apply Exists_exists in Hm as (i & Hi & Hnone).
    apply elem_of_seq in Hi. destruct (Hbit i ltac:(lia)) as [b Hb]. congruence.
Qed.

Lemma tables_in_range :
  table_in_range IP_TABLE 64 ∧ table_in_range IP_INV_TABLE 64 ∧
  table_in_range PC1_TABLE 64 ∧ table_in_range PC2_TABLE 56 ∧
  table_in_range E_TABLE 32 ∧ table_in_range P_TABLE 32.
Proof. unfold table_in_range. repeat split; repeat constructor; lia. Qed.

(** ** Fixed-length vectors, bit by bit *)

Lemma IP_then_IP_INV b :
  length b = 64%nat →
  apply_permutation b IP_TABLE 64 ≫= (λ x, apply_permutation x IP_INV_TABLE 64)
  = Some b.
Proof. intros H. explode b H. vm_compute. reflexivity. Qed.

Lemma IP_INV_then_IP b :
  length b = 64%nat →
  apply_permutation b IP_INV_TABLE 64 ≫= (λ x, apply_permutation x IP_TABLE 64)
  = Some b.
Proof. intros H. explode b H. vm_compute. reflexivity. Qed.

(** The key schedule of a 64-bit key, computed on 64 unknown bits. *)
Lemma key_schedule_64 key :
  length key = 64%nat →
  ∃ st0 st,
    key_init key = Some st0 ∧ key_schedule key = Some st ∧
    length (c_half st0) = 28%nat ∧ length (d_half st0) = 28%nat ∧
    c_half st = c_half st0 ∧ d_half st = d_half st0 ∧
    length (round_keys st) = 16%nat ∧
    Forall (λ rk, length rk = 48%nat) (round_keys st).
Proof.
  intros H. explode key H. eexists _, _.
  split; [vm_compute; reflexivity|].
  split; [vm_compute; reflexivity|].
  cbn [c_half d_half round_keys]. repeat split. repeat constructor.
Qed.

(** ** S-box lookups *)

(** One S-box on one chunk: the indices the code derives are those of the
    specification and are in range, the entry is a 4-bit value, and the
    bits the code emits are those of the specification. *)
Lemma s_box_chunk_lookup i chunk :
  (i < 8)%nat → length chunk = 6%nat →
  s_box_row chunk = Some (spec_row chunk) ∧
  s_box_col chunk = Some (spec_col chunk) ∧
  0 ≤ spec_row chunk ≤ 3 ∧ 0 ≤ spec_col chunk ≤ 15 ∧
  s_box_lookup i (spec_row chunk) (spec_col chunk) = Some (spec_value i chunk) ∧
  0 ≤ spec_value i chunk ≤ 15 ∧
  spec_s_box_chunk i chunk
  = [s_box_bit (spec_value i chunk) 0; s_box_bit (spec_value i chunk) 1;
     s_box_bit (spec_value i chunk) 2; s_box_bit (spec_value i chunk) 3].
Proof.
  intros Hi H. explode chunk H.
  destruct i as [|[|[|[|[|[|[|[|i]]]]]]]]; [..|lia];
    repeat match goal with b : bool |- _ => destruct b end;
    (split; [reflexivity|]); (split; [reflexivity|]);
    (split; [vm_compute; split; discriminate|]);
    (split; [vm_compute; split; discriminate|]); (split; [reflexivity|]);
    (split; [vm_compute; split; discriminate|]); reflexivity.
Qed.

Lemma vec_range_Some {A} (v : list A) lo hi :
  (lo ≤ hi ≤ length v)%nat →
  vec_range v lo hi = Some (take (hi - lo) (drop lo v)).
Proof.
  intros H. unfold vec_range.
  destruct (Nat.leb_spec lo hi); [|lia].
  destruct (Nat.leb_spec hi (length v)); [done|lia].
Qed.

Lemma vec_range_length {A} (v r : list A) lo hi :
  vec_range v lo hi = Some r → length r = (hi - lo)%nat.
Proof.
  unfold vec_range.
  destruct (Nat.leb_spec lo hi); [|done].
  destruct (Nat.leb_spec hi (length v)); [|done].
  intros [= <-]. rewrite length_take, length_drop. lia.
Qed.

(** One iteration of the S-box loop writes the four specified bits of
    chunk [i] at positions [4i .. 4i+3] and nothing else. *)
Lemma s_box_step_Some i input output chunk :
  (i < 8)%nat →
  vec_range input (i * 6) ((i + 1) * 6) = Some chunk →
  (i * 4 + 3 < length output)%nat →
  s_box_step input i output
  = Some (<[(i * 4 + 3)%nat := spec_bit i chunk 3]>
         (<[(i * 4 + 2)%nat := spec_bit i chunk 2]>
         (<[(i * 4 + 1)%nat := spec_bit i chunk 1]>
         (<[(i * 4 + 0)%nat := spec_bit i chunk 0]> output)))).
Proof.
  intros Hi Hchunk Hout. unfold s_box_step. rewrite Hchunk. simpl.
  assert (length chunk = 6%nat) as Hlen
    by (apply vec_range_length in Hchunk; lia).
  destruct (s_box_chunk_lookup i chunk Hi Hlen)
    as (Hr & Hc & _ & _ & Hl & _ & Hspec).
  rewrite Hr. cbn [mbind option_bind]. rewrite Hc. cbn [mbind option_bind].
  rewrite Hl. cbn [mbind option_bind for_loop].
  do 4 (rewrite vec_set_Some by (rewrite ?length_insert; lia);
        cbn [mbind option_bind]).
  unfold spec_bit. rewrite Hspec. reflexivity.
Qed.

(** On 48 bits the code's substitution is the specified one. *)
Lemma s_box_substitution_48 input :
  length input = 48%nat →
  s_box_substitution input = Some (spec_substitute input).
Proof.
  intros H. explode input H.
  unfold s_box_substitution. cbn [for_loop].
  repeat (erewrite s_box_step_Some;
          [|lia|reflexivity|rewrite ?length_insert, length_replicate; lia];
          cbn [mbind option_bind]).
  reflexivity.
Qed.

Lemma spec_substitute_length input : length (spec_substitute input) = 32%nat.
Proof. reflexivity. Qed.

(** ** [xor_bits] *)

Lemma xor_bits_mapM a b :
  xor_bits a b = mapM (xor_bit a b) (seq 0 (length a)).
Proof.
  unfold xor_bits. rewrite <- (fill_loop_0 _ (length a) false).
  apply for_loop_ext. intros i out _. unfold xor_bit.
  by destruct (a !! i) as [x|]; simpl; [destruct (b !! i)|].
Qed.

Lemma xor_bits_zip a b :
  (length a ≤ length b)%nat → xor_bits a b = Some (zip_with xorb a b).
Proof.
  intros Hlen. rewrite xor_bits_mapM. apply mapM_seq_Some. split.
  - rewrite length_zip_with. lia.
  - intros i _. by rewrite lookup_zip_with.
Qed.

Lemma xor_twice a p :
  length a = length p → zip_with xorb (zip_with xorb a p) p = a.
Proof.
  revert p. induction a as [|x a IH]; intros [|y p] Hlen; try done.
  simpl. rewrite IH by (simpl in Hlen; lia). f_equal. by destruct x, y.
Qed.

(** Only the first [length a] bits of [b] are read. *)
Lemma xor_bits_take a b n :
  (length a ≤ n)%nat → xor_bits a (take n b) = xor_bits a b.
Proof.
  intros Hn. unfold xor_bits. apply for_loop_ext. intros i out Hi.
  by rewrite lookup_take_lt by lia.
Qed.

(** ** The Feistel rounds *)

Lemma encrypt_round_step rks i st :
  encrypt_round rks i st = rk ← rks !! i; feistel_step rk st.
Proof.
  destruct st as [l r]. unfold encrypt_round, feistel_step, round_function.
  cbn [fst snd].
  destruct (apply_permutation r E_TABLE 48) as [e|]; cbn [mbind option_bind];
    destruct (rks !! i) as [rk|]; cbn [mbind option_bind]; try done.
  destruct (xor_bits e rk) as [x|]; cbn [mbind option_bind]; [|done].
  destruct (s_box_substitution x) as [s|]; cbn [mbind option_bind]; [|done].
  by destruct (apply_permutation s P_TABLE 32).
Qed.

Lemma decrypt_round_encrypt_round rks i st :
  decrypt_round rks i st = encrypt_round rks i st.
Proof. reflexivity. Qed.

(** The indexed loop over [round_keys[i]] is the iteration over the list of
    round keys. *)
Lemma for_loop_feistel rks : ∀ pre st,
  for_loop (length rks) (length pre) (encrypt_round (pre ++ rks)) st
  = feistel_rounds rks st.
Proof.
  induction rks as [|rk rks IH]; intros pre st; [done|].
  cbn [length for_loop feistel_rounds]. rewrite encrypt_round_step.
  rewrite list_lookup_middle by done. cbn [mbind option_bind].
  destruct (feistel_step rk st) as [st'|]; cbn [mbind option_bind]; [|done].
  specialize (IH (pre ++ [rk]) st').
  rewrite length_app, <- app_assoc in IH. simpl in IH.
  by rewrite Nat.add_1_r in IH.
Qed.

Lemma feistel_rounds_app rks1 rks2 st :
  feistel_rounds (rks1 ++ rks2) st
  = feistel_rounds rks1 st ≫= feistel_rounds rks2.
Proof.
  revert st. induction rks1 as [|rk rks1 IH]; intros st; [done|].
  simpl. destruct (feistel_step rk st); simpl; [apply IH|done].
Qed.

Lemma table_in_range_nat table (n : nat) (input : list bool) :
  table_in_range table (Z.of_nat n) → (n ≤ length input)%nat →
  Forall (λ t, 1 ≤ t ≤ Z.of_nat (length input)) table.
Proof. intros Ht Hn. eapply Forall_impl; [exact Ht|]. simpl. lia. Qed.

Lemma round_function_total r rk :
  length r = 32%nat → (48 ≤ length rk)%nat →
  ∃ p, round_function r rk = Some p ∧ length p = 32%nat.
Proof.
  intros Hr Hrk. unfold round_function.
  destruct (apply_permutation_in_range r E_TABLE 48) as (e & -> & He); [done|..].
  { apply (table_in_range_nat _ 32); [apply tables_in_range|lia]. }
  cbn [mbind option_bind]. rewrite xor_bits_zip by lia. cbn [mbind option_bind].
  rewrite s_box_substitution_48 by (rewrite length_zip_with; lia).
  cbn [mbind option_bind].
  destruct (apply_permutation_in_range (spec_substitute (zip_with xorb e rk))
              P_TABLE 32) as (p & -> & Hp); [done|..|by eauto].
  apply (table_in_range_nat _ 32); [apply tables_in_range|].
  by rewrite spec_substitute_length.
Qed.

Lemma feistel_step_total rk st :
  half_pair st → (48 ≤ length rk)%nat →
  ∃ st', feistel_step rk st = Some st' ∧ half_pair st'.
Proof.
  intros [Hl Hr] Hrk. unfold feistel_step.
  destruct (round_function_total st.2 rk Hr Hrk) as (p & -> & Hp).
  cbn [mbind option_bind]. rewrite xor_bits_zip by lia.
  eexists. split; [done|]. split; cbn [fst snd]; [done|].
  rewrite length_zip_with. lia.
Qed.

(** Running one round on the swapped result undoes it. *)
Lemma feistel_step_swap rk st st' :
  half_pair st → feistel_step rk st = Some st' →
  feistel_step rk (st'.2, st'.1) = Some (st.2, st.1) ∧ half_pair st'.
Proof.
  intros [Hl Hr]. unfold feistel_step. cbn [fst snd].
  destruct (round_function st.2 rk) as [p|] eqn:Hp; cbn [mbind option_bind]; [|done].
  assert (length p = 32%nat) as Hplen.
  { unfold round_function in Hp.
    destruct (apply_permutation st.2 E_TABLE 48); cbn [mbind option_bind] in Hp; [|done].
    destruct (xor_bits _ rk); cbn [mbind option_bind] in Hp; [|done].
    destruct (s_box_substitution _); cbn [mbind option_bind] in Hp; [|done].
    by apply apply_permutation_Some in Hp as [? _]. }
  rewrite xor_bits_zip by lia. intros [= <-]. cbn [fst snd].
  rewrite Hp. cbn [mbind option_bind].
  rewrite xor_bits_zip by (rewrite length_zip_with; lia).
  rewrite xor_twice by lia. split; [done|].
  split; cbn [fst snd]; [done|]. rewrite length_zip_with. lia.
Qed.

Lemma feistel_rounds_total rks : ∀ st,
  half_pair st → Forall (λ rk, (48 ≤ length rk)%nat) rks →
  ∃ st', feistel_rounds rks st = Some st' ∧ half_pair st'.
Proof.
  induction rks as [|rk rks IH]; intros st Hst Hrks; [by eauto|].
  apply Forall_cons in Hrks as [Hrk Hrks]. simpl.
  destruct (feistel_step_total rk st Hst Hrk) as (st1 & -> & Hst1).
  cbn [mbind option_bind]. by apply IH.
Qed.

(** The rounds with the keys in reverse order, run on the swapped result,
    give back the swapped start. *)
Lemma feistel_rounds_reverse rks : ∀ st st',
  half_pair st → feistel_rounds rks st = Some st' →
  feistel_rounds (reverse rks) (st'.2, st'.1) = Some (st.2, st.1) ∧
  half_pair st'.
Proof.
  induction rks as [|rk rks IH]; intros st st' Hst.
  - intros [= <-]. by destruct st.
  - simpl. destruct (feistel_step rk st) as [st1|] eqn:H1;
      cbn [mbind option_bind]; [|done].
    intros Hrest.
    destruct (feistel_step_swap rk st st1 Hst H1) as [Hback Hst1].
    destruct (IH st1 st' Hst1 Hrest) as [IH' Hst'].
    split; [|done]. rewrite reverse_cons, feistel_rounds_app, IH'.
    cbn [mbind option_bind feistel_rounds]. rewrite Hback. done.
Qed.

(** ** The block transform *)

Lemma for_loop_16 rks st :
  length rks = 16%nat →
  for_loop 16 0 (encrypt_round rks) st = feistel_rounds rks st.
Proof. intros H. rewrite <- H. apply (for_loop_feistel rks []). Qed.

(** Re-assembly of the two halves with [std::copy]. *)
Lemma vec_copy_halves (a b : list bool) :
  length a = 32%nat → length b = 32%nat →
  vec_copy a (replicate 64 false) 0 ≫= (λ c, vec_copy b c 32) = Some (a ++ b).
Proof. intros Ha Hb. explode a Ha. explode b Hb. reflexivity. Qed.

Lemma des_decrypt_rounds_encrypt block rks :
  des_decrypt_rounds block rks = des_encrypt_rounds block rks.
Proof. reflexivity. Qed.

(** The transform of a 64-bit block: IP, the rounds, Right before Left,
    inverse IP. *)
Lemma des_encrypt_rounds_64 block rks :
  length block = 64%nat → length rks = 16%nat →
  ∃ b1, apply_permutation block IP_TABLE 64 = Some b1 ∧ length b1 = 64%nat ∧
    des_encrypt_rounds block rks
    = feistel_rounds rks (take 32 b1, drop 32 b1)
      ≫= λ st, apply_permutation (st.2 ++ st.1) IP_INV_TABLE 64.
Proof.
  intros Hb Hrks.
  destruct (apply_permutation_in_range block IP_TABLE 64) as (b1 & Hip & Hb1);
    [done|..].
  { apply (table_in_range_nat _ 64); [apply tables_in_range|lia]. }
  exists b1. split; [done|]. split; [done|].
  unfold des_encrypt_rounds. rewrite Hip. cbn [mbind option_bind].
  rewrite !vec_range_Some by lia. cbn [mbind option_bind].
  rewrite Hb1. change (64 - 32)%nat with 32%nat. change (32 - 0)%nat with 32%nat.
  rewrite drop_0, (take_ge (drop 32 b1)) by (rewrite length_drop; lia).
  rewrite for_loop_16 by done.
  assert (half_pair (take 32 b1, drop 32 b1)) as Hst.
  { split; cbn [fst snd]; rewrite ?length_take, ?length_drop; lia. }
  destruct (feistel_rounds rks _) as [[l r]|] eqn:Hrounds;
    cbn [mbind option_bind]; [|done].
  destruct (feistel_rounds_reverse _ _ _ Hst Hrounds) as [_ [Hl Hr]].
  cbn [fst snd] in *.
  pose proof (vec_copy_halves r l Hr Hl) as Hcopy.
  destruct (vec_copy r (replicate 64 false) 0) as [c|];
    cbn [mbind option_bind] in *; [|done].
  by rewrite Hcopy.
Qed.

Lemma des_encrypt_rounds_total block rks :
  length block = 64%nat → length rks = 16%nat →
  Forall (λ rk, (48 ≤ length rk)%nat) rks →
  ∃ ct, des_encrypt_rounds block rks = Some ct ∧ length ct = 64%nat.
Proof.
  intros Hb Hrks Hall.
  destruct (des_encrypt_rounds_64 block rks Hb Hrks) as (b1 & _ & Hb1 & ->).
  destruct (feistel_rounds_total rks (take 32 b1, drop 32 b1)) as (st & -> & Hl & Hr);
    [|done|].
  { split; cbn [fst snd]; rewrite ?length_take, ?length_drop; lia. }
  cbn [mbind option_bind]. apply apply_permutation_in_range; [done|].
  apply (table_in_range_nat _ 64); [apply tables_in_range|].
  rewrite length_app. lia.
Qed.

(** Transforming the result again with the round keys reversed gives the
    block back. *)
Lemma des_encrypt_rounds_reverse block rks ct :
  length block = 64%nat → length rks = 16%nat →
  des_encrypt_rounds block rks = Some ct →
  des_encrypt_rounds ct (reverse rks) = Some block.
Proof.
  intros Hb Hrks.
  destruct (des_encrypt_rounds_64 block rks Hb Hrks) as (b1 & Hip & Hb1 & ->).
  destruct (feistel_rounds rks _) as [[l r]|] eqn:Hrounds;
    cbn [mbind option_bind fst snd]; [|done].
  intros Hct.
  destruct (feistel_rounds_reverse rks (take 32 b1, drop 32 b1) (l, r))
    as [Hback [Hl Hr]]; [|done|].
  { split; cbn [fst snd]; rewrite ?length_take, ?length_drop; lia. }
  cbn [fst snd] in *.
  assert (length ct = 64%nat) as Hctlen
    by (by apply apply_permutation_Some in Hct as [? _]).
  destruct (des_encrypt_rounds_64 ct (reverse rks)) as (c1 & Hip' & _ & ->);
    [done|by rewrite length_reverse|].
  pose proof (IP_INV_then_IP (r ++ l)) as Hinv.
  rewrite Hct in Hinv. cbn [mbind option_bind] in Hinv.
  rewrite Hinv in Hip' by (rewrite length_app; lia). injection Hip' as <-.
  rewrite take_app_length' , drop_app_length' by done.
  rewrite Hback. cbn [mbind option_bind fst snd].
  rewrite take_drop.
  pose proof (IP_then_IP_INV block Hb) as Hinv'.
  by rewrite Hip in Hinv'.
Qed.

(** ** Bits that are never read *)

Lemma apply_permutation_take input table n (m : nat) :
  table_in_range table (Z.of_nat m) →
  apply_permutation (take m input) table n = apply_permutation input table n.
Proof.
  intros Ht. rewrite !apply_permutation_mapM. apply mapM_ext. intros i.
  unfold permuted_bit. destruct (table !! i) as [t|] eqn:Hi; [|done].
  cbn [mbind option_bind]. unfold vec_get.
  destruct (Z.leb_spec 0 (t - 1)); [|done].
  apply lookup_take_lt.
  pose proof (Forall_lookup_1 _ _ _ _ Ht Hi) as Hrange. simpl in Hrange. lia.
Qed.

Lemma encrypt_round_take rks i st :
  (i < 16)%nat →
  encrypt_round (take 48 <$> take 16 rks) i st = encrypt_round rks i st.
Proof.
  intros Hi. destruct st as [l r]. unfold encrypt_round.
  destruct (apply_permutation r E_TABLE 48) as [e|] eqn:He;
    cbn [mbind option_bind]; [|done].
  rewrite list_lookup_fmap, lookup_take_lt by done.
  destruct (rks !! i) as [rk|]; cbn [fmap option_fmap option_map mbind option_bind];
    [|done].
  apply apply_permutation_Some in He as [He _].
  by rewrite xor_bits_take by lia.
Qed.

Lemma des_encrypt_rounds_take block rks :
  des_encrypt_rounds (take 64 block) (take 48 <$> take 16 rks)
  = des_encrypt_rounds block rks.
Proof.
  unfold des_encrypt_rounds.
  rewrite (apply_permutation_take block IP_TABLE 64 64) by apply tables_in_range.
  destruct (apply_permutation block IP_TABLE 64) as [b1|];
    cbn [mbind option_bind]; [|done].
  destruct (vec_range b1 0 32) as [l|]; cbn [mbind option_bind]; [|done].
  destruct (vec_range b1 32 (length b1)) as [r|]; cbn [mbind option_bind]; [|done].
  rewrite (for_loop_ext _ (encrypt_round rks)); [done|].
  intros i st Hi. apply encrypt_round_take. lia.
Qed.

Lemma generate_round_keys_take key :
  generate_round_keys (take 64 key) = generate_round_keys key.
Proof.
  unfold generate_round_keys, key_schedule, key_init.
  by rewrite (apply_permutation_take key PC1_TABLE 56 64) by apply tables_in_range.
Qed.

(** * Properties of the program *)

(** C1. Encrypting the all-zero 64-bit block under the all-zero 64-bit key
    (round keys from [generate_round_keys], then the forward 16-round
    transform of [des_encrypt]) gives the published DES ciphertext
    8CA64DE9C1B123A7, bit for bit. *)
Theorem known_answer_zero_key_zero_block :
  des_encrypt (replicate 64 false) (replicate 64 false)
  = Some (bits_of_Z 64 0x8CA64DE9C1B123A7).
Proof. vm_compute. reflexivity. Qed.

(** A second published vector: key 133457799BBCDFF1, block
    0123456789ABCDEF, ciphertext 85E813540F0AB405. *)
Example known_answer_classic :
  des_encrypt (bits_of_Z 64 0x0123456789ABCDEF) (bits_of_Z 64 0x133457799BBCDFF1)
  = Some (bits_of_Z 64 0x85E813540F0AB405).
Proof. vm_compute. reflexivity. Qed.

(** C2. For every 64-bit block and every 64-bit key, encryption yields a
    ciphertext, and decrypting that ciphertext under the same key gives the
    block back: the transform with the round keys in forward order followed
    by the transform with the same round keys reversed is the identity. *)
Theorem decrypt_of_encrypt block key :
  length block = 64%nat → length key = 64%nat →
  ∃ rks ct,
    generate_round_keys key = Some rks ∧
    des_encrypt_rounds block rks = Some ct ∧
    des_encrypt_rounds ct (reverse rks) = Some block ∧
    des_encrypt block key = Some ct ∧
    des_decrypt ct key = Some block.
Proof.
  intros Hb Hk.
  destruct (key_schedule_64 key Hk)
    as (st0 & st & _ & Hks & _ & _ & _ & _ & Hlen & Hall).
  assert (generate_round_keys key = Some (round_keys st)) as Hgen
    by (unfold generate_round_keys; by rewrite Hks).
  destruct (des_encrypt_rounds_total block (round_keys st) Hb Hlen)
    as (ct & Hct & _).
  { eapply Forall_impl; [exact Hall|]. simpl. lia. }
  pose proof (des_encrypt_rounds_reverse _ _ _ Hb Hlen Hct) as Hback.
  exists (round_keys st), ct. repeat split; try done.
  - unfold des_encrypt. by rewrite Hgen.
  - unfold des_decrypt. rewrite Hgen. cbn [mbind option_bind].
    by rewrite des_decrypt_rounds_encrypt.
Qed.

Lemma decrypt_of_encrypt_witness :
  length (replicate 64 false) = 64%nat ∧
  ∃ rks ct,
    generate_round_keys (replicate 64 true) = Some rks ∧
    des_encrypt_rounds (replicate 64 false) rks = Some ct ∧
    des_encrypt_rounds ct (reverse rks) = Some (replicate 64 false) ∧
    des_encrypt (replicate 64 false) (replicate 64 true) = Some ct ∧
    des_decrypt ct (replicate 64 true) = Some (replicate 64 false).
Proof.
  split; [reflexivity|].
  apply (decrypt_of_encrypt (replicate 64 false) (replicate 64 true));
    reflexivity.
Defined.

(** C3. [des_decrypt] is [des_encrypt]'s block transform run on the round
    keys in reversed order: the loop bodies of the two functions agree on
    every state, and so do the two functions once the keys are reversed. *)
Theorem des_decrypt_is_reversed_encrypt :
  (∀ rks i st, decrypt_round rks i st = encrypt_round rks i st) ∧
  (∀ block rks, des_decrypt_rounds block rks = des_encrypt_rounds block rks) ∧
  (∀ block key,
     des_decrypt block key
     = generate_round_keys key ≫= λ rks, des_encrypt_rounds block (reverse rks)).
Proof.
  split; [exact decrypt_round_encrypt_round|].
  split; [exact des_decrypt_rounds_encrypt|].
  intros block key. unfold des_decrypt.
  destruct (generate_round_keys key) as [rks|]; cbn [mbind option_bind]; [|done].
  apply des_decrypt_rounds_encrypt.
Qed.

(** C4, as stated, fails: a 72-bit key and a 72-bit block are not 64 bits
    long, yet nothing is rejected.  The key schedule returns the round keys
    of the first 64 bits and the encryption returns the ciphertext of the
    truncated inputs; a 63-bit key is accepted as well. *)
Lemma wrong_lengths_not_rejected :
  length (replicate 72 false) ≠ 64%nat ∧
  generate_round_keys (replicate 72 false)
  = generate_round_keys (replicate 64 false) ∧
  des_encrypt (replicate 72 false) (replicate 72 false)
  = Some (bits_of_Z 64 0x8CA64DE9C1B123A7) ∧
  length (replicate 63 false) ≠ 64%nat ∧
  is_Some (generate_round_keys (replicate 63 false)) ∧
  ¬ (∀ key, length key ≠ 64%nat → generate_round_keys key = None) ∧
  ¬ (∀ block key, length block ≠ 64%nat → des_encrypt block key = None).
Proof.
  split; [vm_compute; discriminate|].
  split; [vm_compute; reflexivity|].
  split; [vm_compute; reflexivity|].
  split; [vm_compute; discriminate|].
  split; [vm_compute; eexists; reflexivity|].
  split.
  - intros H. specialize (H (replicate 72 false)). vm_compute in H.
    specialize (H ltac:(discriminate)). discriminate H.
  - intros H. specialize (H (replicate 72 false) (replicate 64 false)).
    vm_compute in H. specialize (H ltac:(discriminate)). discriminate H.
Qed.

(** C4, amended.  No length is checked and no failure is reported: a key or
    block of more than 64 bits, a sequence of more than 16 round keys and a
    round key of more than 48 bits are all accepted, and the result is the
    one computed from the first 64 bits, the first 16 round keys and the
    first 48 bits of each. *)
Theorem longer_inputs_truncated key block rks :
  (64 ≤ length key)%nat → (64 ≤ length block)%nat →
  (16 ≤ length rks)%nat →
  Forall (λ rk, (48 ≤ length rk)%nat) (take 16 rks) →
  (∃ ks, generate_round_keys key = Some ks ∧
         generate_round_keys (take 64 key) = Some ks) ∧
  (∃ ct, des_encrypt_rounds block rks = Some ct ∧
         des_encrypt_rounds (take 64 block) (take 48 <$> take 16 rks) = Some ct) ∧
  (∃ ct, des_encrypt block key = Some ct ∧
         des_encrypt (take 64 block) (take 64 key) = Some ct).
Proof.
  intros Hk Hb Hn Hrks.
  assert (length (take 64 key) = 64%nat) as Hk' by (rewrite length_take; lia).
  assert (length (take 64 block) = 64%nat) as Hb' by (rewrite length_take; lia).
  destruct (key_schedule_64 _ Hk')
    as (st0 & st & _ & Hks & _ & _ & _ & _ & Hlen & Hall).
  assert (generate_round_keys (take 64 key) = Some (round_keys st)) as Hgen
    by (unfold generate_round_keys; by rewrite Hks).
  split; [|split].
  - exists (round_keys st). by rewrite <- generate_round_keys_take.
  - destruct (des_encrypt_rounds_total (take 64 block) (take 48 <$> take 16 rks))
      as (ct & Hct & _); [done|..].
    + rewrite length_fmap, length_take. lia.
    + apply Forall_fmap. eapply Forall_impl; [exact Hrks|].
      intros rk Hrk. unfold compose. rewrite length_take. cbv beta in Hrk. lia.
    + exists ct. by rewrite <- des_encrypt_rounds_take.
  - destruct (des_encrypt_rounds_total (take 64 block) (round_keys st))
      as (ct & Hct & _); [done..| |].
    { eapply Forall_impl; [exact Hall|]. simpl. lia. }
    exists ct. unfold des_encrypt.
    rewrite <- (generate_round_keys_take key), Hgen. cbn [mbind option_bind].
    split; [|done].
    rewrite <- (des_encrypt_rounds_take block).
    rewrite <- (des_encrypt_rounds_take (take 64 block)) in Hct.
    rewrite take_take in Hct. exact Hct.
Qed.

Lemma longer_inputs_truncated_witness :
  (64 ≤ length (replicate 72 false))%nat ∧
  ∃ ct, des_encrypt (replicate 72 true) (replicate 72 false) = Some ct ∧
        des_encrypt (take 64 (replicate 72 true)) (take 64 (replicate 72 false))
        = Some ct.
Proof.
  split; [simpl; lia|].
  apply (longer_inputs_truncated (replicate 72 false) (replicate 72 true)
           (replicate 17 (replicate 50 false))).
  - simpl. lia.
  - simpl. lia.
  - simpl. lia.
  - simpl. repeat (constructor; [simpl; lia|]). constructor.
Defined.

(** C5. For every 64-bit master key [generate_round_keys] returns exactly
    16 round keys, in order, each exactly 48 bits long. *)
Theorem round_keys_16_of_48 key :
  length key = 64%nat →
  ∃ rks, generate_round_keys key = Some rks ∧ length rks = 16%nat ∧
         Forall (λ rk, length rk = 48%nat) rks.
Proof.
  intros Hk.
  destruct (key_schedule_64 key Hk)
    as (st0 & st & _ & Hks & _ & _ & _ & _ & Hlen & Hall).
  exists (round_keys st). unfold generate_round_keys. by rewrite Hks.
Qed.

Lemma round_keys_16_of_48_witness :
  length (bits_of_Z 64 0x133457799BBCDFF1) = 64%nat ∧
  ∃ rks, generate_round_keys (bits_of_Z 64 0x133457799BBCDFF1) = Some rks ∧
         length rks = 16%nat ∧ Forall (λ rk, length rk = 48%nat) rks.
Proof.
  split; [reflexivity|].
  apply (round_keys_16_of_48 (bits_of_Z 64 0x133457799BBCDFF1)). reflexivity.
Defined.

(** C6. On every 48-bit input the substitution step is the specified one.
    The input is cut into eight consecutive 6-bit chunks; for chunk [j] the
    code's row index is 2*bit0 + bit5, its column index is
    8*bit1 + 4*bit2 + 2*bit3 + bit4, the entry [S_BOXES[j][row][col]] is
    written most significant bit first at output positions 4j .. 4j+3, and
    the 32-bit result is the concatenation of the eight 4-bit outputs. *)
Theorem s_box_substitution_spec input :
  length input = 48%nat →
  ∃ output,
    s_box_substitution input = Some output ∧
    length output = 32%nat ∧
    output = spec_substitute input ∧
    ∀ j, (j < 8)%nat →
      let chunk := spec_chunk input j in
      vec_range input (j * 6) ((j + 1) * 6) = Some chunk ∧
      (∀ k, (k < 6)%nat → chunk !! k = input !! (6 * j + k)%nat) ∧
      s_box_row chunk = Some (spec_row chunk) ∧
      s_box_col chunk = Some (spec_col chunk) ∧
      s_box_lookup j (spec_row chunk) (spec_col chunk)
      = Some (spec_value j chunk) ∧
      ∀ t, (t < 4)%nat →
        output !! (4 * j + t)%nat
        = Some (Z.testbit (spec_value j chunk) (3 - Z.of_nat t)).
Proof.
  intros Hlen. exists (spec_substitute input).
  split; [by apply s_box_substitution_48|].
  split; [reflexivity|]. split; [reflexivity|].
  intros j Hj chunk.
  assert (vec_range input (j * 6) ((j + 1) * 6) = Some chunk) as Hrange.
  { rewrite vec_range_Some by lia. unfold chunk, spec_chunk.
    do 3 f_equal; lia. }
  assert (length chunk = 6%nat) as Hchunk
    by (apply vec_range_length in Hrange; lia).
  destruct (s_box_chunk_lookup j chunk Hj Hchunk)
    as (Hr & Hc & _ & _ & Hl & _ & _).
  split; [done|]. split.
  { intros k Hk. unfold chunk, spec_chunk.
    by rewrite lookup_take_lt, lookup_drop by done. }
  do 3 (split; [done|]).
  intros t Ht. subst chunk. clear -Hj Ht.
  destruct j as [|[|[|[|[|[|[|[|j]]]]]]]]; [..|lia];
    (destruct t as [|[|[|[|t]]]]; [..|lia]); reflexivity.
Qed.

Lemma s_box_substitution_spec_witness :
  length (bits_of_Z 48 0x123456789ABC) = 48%nat ∧
  ∃ output,
    s_box_substitution (bits_of_Z 48 0x123456789ABC) = Some output ∧
    length output = 32%nat ∧
    output = spec_substitute (bits_of_Z 48 0x123456789ABC).
Proof.
  split; [reflexivity|].
  destruct (s_box_substitution_spec (bits_of_Z 48 0x123456789ABC) eq_refl)
    as (output & H1 & H2 & H3 & _).
  exists output. split; [exact H1|]. split; [exact H2|exact H3].
Defined.

(** C7. For every 6-bit chunk of every 48-bit input and each of the eight
    substitution tables, the row index the code derives lies in [0,3] and
    the column index in [0,15], so the lookup is inside the table, and the
    value found lies in [0,15]. *)
Theorem s_box_lookup_in_bounds input i k :
  length input = 48%nat → (i < 8)%nat → (k < 8)%nat →
  ∃ chunk row col val,
    vec_range input (i * 6) ((i + 1) * 6) = Some chunk ∧
    s_box_row chunk = Some row ∧ s_box_col chunk = Some col ∧
    0 ≤ row ≤ 3 ∧ 0 ≤ col ≤ 15 ∧
    s_box_lookup k row col = Some val ∧ 0 ≤ val ≤ 15.
Proof.
  intros Hlen Hi Hk.
  destruct (vec_range input (i * 6) ((i + 1) * 6)) as [chunk|] eqn:Hrange;
    [|by rewrite vec_range_Some in Hrange by lia].
  assert (length chunk = 6%nat) as Hchunk
    by (apply vec_range_length in Hrange; lia).
  destruct (s_box_chunk_lookup k chunk Hk Hchunk)
    as (Hr & Hc & Hrow & Hcol & Hl & Hval & _).
  by exists chunk, (spec_row chunk), (spec_col chunk), (spec_value k chunk).
Qed.

Lemma s_box_lookup_in_bounds_witness :
  length (replicate 48 true) = 48%nat ∧
  ∃ chunk row col val,
    vec_range (replicate 48 true) (7 * 6) ((7 + 1) * 6) = Some chunk ∧
    s_box_row chunk = Some row ∧ s_box_col chunk = Some col ∧
    0 ≤ row ≤ 3 ∧ 0 ≤ col ≤ 15 ∧
    s_box_lookup 3 row col = Some val ∧ 0 ≤ val ≤ 15.
Proof.
  split; [reflexivity|].
  apply (s_box_lookup_in_bounds (replicate 48 true) 7 3); [reflexivity|lia|lia].
Defined.

(** C8. Every entry of every permutation table lies in [1, input length]
    for the input length the table is declared for (IP, inverse IP and PC-1:
    64; PC-2: 56; E and P: 32), each table has as many entries as
    [apply_permutation] is asked for, and so [apply_permutation] never
    reads outside an input of the declared length. *)
Theorem permutation_tables_in_range table input_length table_size :
  In (table, input_length, table_size) declared_tables →
  length table = table_size ∧
  table_in_range table (Z.of_nat input_length) ∧
  ∀ input, length input = input_length →
    ∃ output, apply_permutation input table table_size = Some output ∧
              length output = table_size.
Proof.
  intros Hin.
  assert (length table = table_size ∧
          table_in_range table (Z.of_nat input_length)) as [Hsize Hrange].
  { simpl in Hin.
    repeat (destruct Hin as [[= <- <- <-]|Hin];
            [split; [reflexivity|]; unfold table_in_range;
             repeat constructor; simpl; lia|]).
    destruct Hin. }
  split; [done|]. split; [done|].
  intros input Hlen. apply apply_permutation_in_range; [lia|].
  apply (table_in_range_nat _ input_length); [done|lia].
Qed.

Lemma permutation_tables_in_range_witness :
  In (PC2_TABLE, 56%nat, 48%nat) declared_tables ∧
  length PC2_TABLE = 48%nat ∧
  table_in_range PC2_TABLE (Z.of_nat 56) ∧
  ∀ input, length input = 56%nat →
    ∃ output, apply_permutation input PC2_TABLE 48 = Some output ∧
              length output = 48%nat.
Proof.
  assert (In (PC2_TABLE, 56%nat, 48%nat) declared_tables) as Hin.
  { simpl. right. right. right. left. reflexivity. }
  split; [exact Hin|].
  apply (permutation_tables_in_range PC2_TABLE 56 48 Hin).
Defined.

(** C9. [IP_INV_TABLE] is the inverse permutation of [IP_TABLE]: on every
    64-bit block, applying IP and then the inverse IP gives the block back,
    and so does applying the inverse IP first and IP second. *)
Theorem IP_INV_inverts_IP b :
  length b = 64%nat →
  (∃ x, apply_permutation b IP_TABLE 64 = Some x ∧
        apply_permutation x IP_INV_TABLE 64 = Some b) ∧
  (∃ y, apply_permutation b IP_INV_TABLE 64 = Some y ∧
        apply_permutation y IP_TABLE 64 = Some b).
Proof.
  intros Hb. split.
  - pose proof (IP_then_IP_INV b Hb) as H.
    destruct (apply_permutation b IP_TABLE 64) as [x|]; [|done]. by exists x.
  - pose proof (IP_INV_then_IP b Hb) as H.
    destruct (apply_permutation b IP_INV_TABLE 64) as [y|]; [|done]. by exists y.
Qed.

Lemma IP_INV_inverts_IP_witness :
  length (bits_of_Z 64 0x0123456789ABCDEF) = 64%nat ∧
  (∃ x, apply_permutation (bits_of_Z 64 0x0123456789ABCDEF) IP_TABLE 64 = Some x ∧
        apply_permutation x IP_INV_TABLE 64
        = Some (bits_of_Z 64 0x0123456789ABCDEF)) ∧
  (∃ y, apply_permutation (bits_of_Z 64 0x0123456789ABCDEF) IP_INV_TABLE 64 = Some y ∧
        apply_permutation y IP_TABLE 64
        = Some (bits_of_Z 64 0x0123456789ABCDEF)).
Proof.
  split; [reflexivity|].
  apply (IP_INV_inverts_IP (bits_of_Z 64 0x0123456789ABCDEF)). reflexivity.
Defined.

(** C10. The sixteen shift amounts add up to 28, and in
    [generate_round_keys] the sixteen rotations together are a full
    rotation of each 28-bit half: when the loop ends, the C half and the D
    half are again C0 and D0, the two halves of the PC-1 output. *)
Theorem shift_schedule_full_rotation key :
  length key = 64%nat →
  foldr Z.add 0 SHIFT_SCHEDULE = 28 ∧
  ∃ st0 st,
    key_init key = Some st0 ∧ key_schedule key = Some st ∧
    length (c_half st0) = 28%nat ∧ length (d_half st0) = 28%nat ∧
    c_half st = c_half st0 ∧ d_half st = d_half st0.
Proof.
  intros Hk. split; [reflexivity|].
  destruct (key_schedule_64 key Hk)
    as (st0 & st & H0 & Hks & Hc0 & Hd0 & Hc & Hd & _).
  by exists st0, st.
Qed.

Lemma shift_schedule_full_rotation_witness :
  length (bits_of_Z 64 0x133457799BBCDFF1) = 64%nat ∧
  foldr Z.add 0 SHIFT_SCHEDULE = 28 ∧
  ∃ st0 st,
    key_init (bits_of_Z 64 0x133457799BBCDFF1) = Some st0 ∧
    key_schedule (bits_of_Z 64 0x133457799BBCDFF1) = Some st ∧
    length (c_half st0) = 28%nat ∧ length (d_half st0) = 28%nat ∧
    c_half st = c_half st0 ∧ d_half st = d_half st0.
Proof.
  split; [reflexivity|].
  apply (shift_schedule_full_rotation (bits_of_Z 64 0x133457799BBCDFF1)).
  reflexivity.
Defined.

(** * Further properties of the helper functions *)

(** ** [circular_left_shift] *)

(** [circular_left_shift] has a defined result exactly when the shift
    amount lies between 0 and the size of the vector ([std::rotate] needs
    its middle iterator inside the range). *)
Lemma circular_left_shift_defined v s :
  is_Some (circular_left_shift v s) ↔ 0 ≤ s ≤ Z.of_nat (length v).
Proof.
  unfold circular_left_shift.
  destruct (Z.leb_spec 0 s), (Z.leb_spec s (Z.of_nat (length v)));
    cbn [andb]; split; intros Hs; try lia; try done; by destruct Hs.
Qed.

Lemma circular_left_shift_length v s w :
  circular_left_shift v s = Some w → length w = length v.
Proof.
  intros Hw.
  assert (is_Some (circular_left_shift v s)) as Hs by (by rewrite Hw).
  apply circular_left_shift_defined in Hs.
  unfold circular_left_shift in Hw.
  destruct (Z.leb_spec 0 s), (Z.leb_spec s (Z.of_nat (length v)));
    cbn [andb] in Hw; try done. injection Hw as <-.
  rewrite length_app, length_take, length_drop. lia.
Qed.

(** X1. A defined [circular_left_shift] keeps the size, and the bit at
    position [i] of the result is the bit at position [(i + shift) mod size]
    of the input: the vector is rotated to the left, nothing is lost. *)
Theorem circular_left_shift_lookup v s w :
  circular_left_shift v s = Some w →
  length w = length v ∧
  ∀ i, (i < length v)%nat →
    w !! i = v !! ((i + Z.to_nat s) mod length v)%nat.
Proof.
  intros Hw.
  assert (is_Some (circular_left_shift v s)) as Hs by (by rewrite Hw).
  apply circular_left_shift_defined in Hs.
  unfold circular_left_shift in Hw.
  destruct (Z.leb_spec 0 s), (Z.leb_spec s (Z.of_nat (length v)));
    cbn [andb] in Hw; try done. injection Hw as <-.
  set (n := Z.to_nat s). assert (n ≤ length v)%nat as Hn by lia.
  split.
  - rewrite length_app, length_take, length_drop. lia.
  - intros i Hi. destruct (decide (i < length v - n)%nat) as [Hlt|Hge].
    + rewrite lookup_app_l by (rewrite length_drop; lia).
      rewrite lookup_drop, Nat.mod_small by lia. f_equal. lia.
    + rewrite lookup_app_r by (rewrite length_drop; lia).
      rewrite length_drop, lookup_take_lt by lia. f_equal.
      apply (Nat.mod_unique _ _ 1); lia.
Qed.

Lemma circular_left_shift_lookup_witness :
  circular_left_shift [true; false; false] 1 = Some [false; false; true] ∧
  length [false; false; true] = length [true; false; false] ∧
  ∀ i, (i < length [true; false; false])%nat →
    [false; false; true] !! i
    = [true; false; false] !! ((i + Z.to_nat 1) mod length [true; false; false])%nat.
Proof.
  split; [reflexivity|].
  apply (circular_left_shift_lookup [true; false; false] 1). reflexivity.
Defined.

Lemma circular_left_shift_Some v s :
  0 ≤ s ≤ Z.of_nat (length v) →
  circular_left_shift v s
  = Some (drop (Z.to_nat s) v ++ take (Z.to_nat s) v).
Proof.
  intros Hs. unfold circular_left_shift.
  destruct (Z.leb_spec 0 s); [|lia].
  by destruct (Z.leb_spec s (Z.of_nat (length v))); [|lia].
Qed.

Lemma circular_left_shift_add v a b :
  0 ≤ a → 0 ≤ b → a + b ≤ Z.of_nat (length v) →
  circular_left_shift v a ≫= (λ w, circular_left_shift w b)
  = circular_left_shift v (a + b).
Proof.
  intros Ha Hb Hab.
  rewrite (circular_left_shift_Some v a), (circular_left_shift_Some v (a + b))
    by lia.
  cbn [mbind option_bind].
  rewrite circular_left_shift_Some
    by (rewrite length_app, length_take, length_drop; lia).
  f_equal. rewrite Z2Nat.inj_add by lia.
  set (n := Z.to_nat a). set (m := Z.to_nat b).
  assert (n + m ≤ length v)%nat as Hnm by lia.
  rewrite drop_app_le, take_app_le by (rewrite length_drop; lia).
  rewrite drop_drop, <- app_assoc. f_equal.
  by rewrite take_take_drop.
Qed.

(** X2. Two shifts in a row are one shift by the sum, as long as the sum
    does not exceed the size of the vector. *)
Theorem circular_left_shift_compose v a b :
  0 ≤ a → 0 ≤ b → a + b ≤ Z.of_nat (length v) →
  circular_left_shift v a ≫= (λ w, circular_left_shift w b)
  = circular_left_shift v (a + b).
Proof. apply circular_left_shift_add. Qed.

Lemma circular_left_shift_compose_witness :
  circular_left_shift [true; false; false; true] 1
    ≫= (λ w, circular_left_shift w 2)
  = circular_left_shift [true; false; false; true] (1 + 2).
Proof.
  apply (circular_left_shift_compose [true; false; false; true] 1 2);
    simpl; lia.
Defined.

Lemma shift_all_sum shifts : ∀ v,
  Forall (λ s, 0 ≤ s) shifts →
  foldr Z.add 0 shifts ≤ Z.of_nat (length v) →
  shift_all shifts v = circular_left_shift v (foldr Z.add 0 shifts).
Proof.
  induction shifts as [|s shifts IH]; intros v Hpos Hsum.
  - simpl. unfold circular_left_shift.
    destruct (Z.leb_spec 0 (Z.of_nat (length v))); [|lia].
    simpl. by rewrite drop_0, app_nil_r.
  - apply Forall_cons in Hpos as [Hs Hpos]. cbn [foldr] in *.
    assert (0 ≤ foldr Z.add 0 shifts) as Hrest.
    { clear -Hpos. induction Hpos; simpl; lia. }
    rewrite <- circular_left_shift_add by lia. cbn [shift_all].
    destruct (circular_left_shift v s) as [v'|] eqn:Hv'; cbn [mbind option_bind];
      [|done].
    apply IH; [done|].
    apply circular_left_shift_length in Hv' as ->. lia.
Qed.

(** X3. Shifts that add up to the size of the vector bring it back: any
    sequence of non-negative shift amounts whose sum is the size of the
    vector, applied one after the other, is the identity (the general form
    of the full rotation of the 28-bit key halves). *)
Theorem shift_all_full_rotation shifts v :
  Forall (λ s, 0 ≤ s) shifts →
  foldr Z.add 0 shifts = Z.of_nat (length v) →
  shift_all shifts v = Some v.
Proof.
  intros Hpos Hsum. rewrite shift_all_sum by (done || lia).
  rewrite Hsum. unfold circular_left_shift.
  destruct (Z.leb_spec 0 (Z.of_nat (length v))); [|lia].
  destruct (Z.leb_spec (Z.of_nat (length v)) (Z.of_nat (length v))); [|lia].
  cbn [andb]. by rewrite Nat2Z.id, drop_all, firstn_all.
Qed.

Lemma shift_all_full_rotation_witness :
  shift_all SHIFT_SCHEDULE (bits_of_Z 28 0xABCDEF1) = Some (bits_of_Z 28 0xABCDEF1).
Proof.
  apply (shift_all_full_rotation SHIFT_SCHEDULE (bits_of_Z 28 0xABCDEF1)).
  - repeat constructor; lia.
  - reflexivity.
Defined.

(** ** [xor_bits] *)

Lemma mapM_seq_None {A} (f : nat → option A) k n i :
  (i < n)%nat → f (k + i)%nat = None → mapM f (seq k n) = None.
Proof.
  intros Hi Hf. apply mapM_None, Exists_exists. exists (k + i)%nat.
  split; [|done]. apply list_elem_of_In, in_seq. lia.
Qed.

Lemma xor_bits_short a b :
  (length b < length a)%nat → xor_bits a b = None.
Proof.
  intros Hlt. rewrite xor_bits_mapM.
  apply (mapM_seq_None _ 0 _ (length b)); [done|].
  unfold xor_bit. simpl.
  destruct (a !! length b); simpl; [|done].
  by rewrite (lookup_ge_None_2 b).
Qed.

(** X4. [xor_bits a b] is governed by the size of [a] alone: when [b] is at
    least as long as [a] the result is the bitwise XOR of [a] with the
    first bits of [b] and has the size of [a]; when [b] is shorter, the loop
    reads past the end of [b] and there is no defined result. *)
Theorem xor_bits_sizes a b :
  xor_bits a b
  = (if (length a <=? length b)%nat then Some (zip_with xorb a b) else None) ∧
  length <$> xor_bits a b
  = (if (length a <=? length b)%nat then Some (length a) else None).
Proof.
  destruct (Nat.leb_spec (length a) (length b)) as [Hle|Hlt].
  - rewrite xor_bits_zip by done. split; [done|]. simpl.
    rewrite length_zip_with. f_equal. lia.
  - by rewrite xor_bits_short.
Qed.

(** X5. XOR with the same vector twice gives the first operand back, for
    operands of equal size; XOR of a vector with itself is all zero. *)
Theorem xor_bits_involutive a b :
  length a = length b →
  xor_bits a b ≫= (λ r, xor_bits r b) = Some a ∧
  xor_bits a a = Some (replicate (length a) false).
Proof.
  intros H. split.
  - rewrite xor_bits_zip by lia. cbn [mbind option_bind].
    rewrite xor_bits_zip by (rewrite length_zip_with; lia).
    by rewrite xor_twice.
  - rewrite xor_bits_zip by lia. f_equal. clear.
    induction a as [|x a IH]; [done|]. simpl. rewrite IH. by destruct x.
Qed.

Lemma xor_bits_involutive_witness :
  xor_bits [true; false; true] [true; true; false]
    ≫= (λ r, xor_bits r [true; true; false]) = Some [true; false; true] ∧
  xor_bits [true; false; true] [true; false; true]
  = Some (replicate (length [true; false; true]) false).
Proof.
  apply (xor_bits_involutive [true; false; true] [true; true; false]).
  reflexivity.
Defined.

(** ** Which inputs have a defined result *)

Lemma for_loop_None {S} (body : nat → S → option S) n : ∀ k s i,
  (k ≤ i < k + n)%nat → (∀ s, body i s = None) →
  for_loop n k body s = None.
Proof.
  induction n as [|n IH]; intros k s i Hi Hnone; [lia|].
  cbn [for_loop]. destruct (decide (i = k)) as [->|Hne].
  - by rewrite Hnone.
  - destruct (body k s) as [s'|]; cbn [mbind option_bind]; [|done].
    apply (IH _ _ i); [lia|done].
Qed.

Lemma apply_permutation_None input table n i t :
  (i < n)%nat → table !! i = Some t → (Z.of_nat (length input) < t) →
  apply_permutation input table n = None.
Proof.
  intros Hi Ht Hlen. rewrite apply_permutation_mapM.
  apply (mapM_seq_None _ 0 _ i); [done|]. simpl.
  unfold permuted_bit. rewrite Ht. cbn [mbind option_bind]. unfold vec_get.
  destruct (Z.leb_spec 0 (t - 1)); [|done].
  apply lookup_ge_None_2. lia.
Qed.

Lemma PC1_TABLE_in_range_63 : table_in_range PC1_TABLE 63.
Proof. unfold table_in_range. repeat constructor; lia. Qed.

Lemma key_schedule_63 key :
  length key = 63%nat → is_Some (generate_round_keys key).
Proof.
  intros H. explode key H. vm_compute. by eexists.
Qed.

(** X6. [generate_round_keys] has a defined result exactly for keys of at
    least 63 bits: PC-1 reads key bit 63 but never bit 64, so a 63-bit key is
    enough, and anything shorter makes PC-1 read past the end of the key. *)
Theorem generate_round_keys_defined key :
  is_Some (generate_round_keys key) ↔ (63 ≤ length key)%nat.
Proof.
  split.
  - intros Hsome. destruct (decide (63 ≤ length key)%nat) as [|Hshort]; [done|].
    exfalso. unfold generate_round_keys, key_schedule, key_init in Hsome.
    rewrite (apply_permutation_None key PC1_TABLE 56 28 63) in Hsome;
      [by destruct Hsome|lia|reflexivity|lia].
  - intros Hlen.
    assert (generate_round_keys (take 63 key) = generate_round_keys key) as <-.
    { unfold generate_round_keys, key_schedule, key_init.
      by rewrite (apply_permutation_take key PC1_TABLE 56 63)
        by apply PC1_TABLE_in_range_63. }
    apply key_schedule_63. rewrite length_take. lia.
Qed.

Lemma generate_round_keys_defined_witness :
  (63 ≤ length (replicate 63 true))%nat ∧
  is_Some (generate_round_keys (replicate 63 true)).
Proof.
  split; [simpl; lia|].
  apply (generate_round_keys_defined (replicate 63 true)). simpl. lia.
Defined.

Lemma encrypt_round_None rks i st :
  match rks !! i with
  | Some rk => (length rk < 48)%nat
  | None => True
  end →
  encrypt_round rks i st = None.
Proof.
  intros Hbad. destruct st as [l r]. unfold encrypt_round.
  destruct (apply_permutation r E_TABLE 48) as [e|] eqn:He;
    cbn [mbind option_bind]; [|done].
  destruct (rks !! i) as [rk|]; cbn [mbind option_bind]; [|done].
  apply apply_permutation_Some in He as [He _].
  by rewrite xor_bits_short by lia.
Qed.

(** X7. The block transform has a defined result exactly when the block has
    at least 64 bits, there are at least 16 round keys, and each of the
    first 16 round keys has at least 48 bits; otherwise some read leaves its
    vector. *)
Theorem des_encrypt_rounds_defined block rks :
  is_Some (des_encrypt_rounds block rks) ↔
  (64 ≤ length block)%nat ∧ (16 ≤ length rks)%nat ∧
  Forall (λ rk, (48 ≤ length rk)%nat) (take 16 rks).
Proof.
  split.
  - intros Hsome. unfold des_encrypt_rounds in Hsome.
    assert (64 ≤ length block)%nat as Hblock.
    { destruct (decide (64 ≤ length block)%nat) as [|Hshort]; [done|]. exfalso.
      rewrite (apply_permutation_None block IP_TABLE 64 24 64) in Hsome;
        [by destruct Hsome|lia|reflexivity|lia]. }
    split; [done|].
    destruct (apply_permutation block IP_TABLE 64) as [b1|];
      cbn [mbind option_bind] in Hsome; [|by destruct Hsome].
    destruct (vec_range b1 0 32) as [l|];
      cbn [mbind option_bind] in Hsome; [|by destruct Hsome].
    destruct (vec_range b1 32 (length b1)) as [r|];
      cbn [mbind option_bind] in Hsome; [|by destruct Hsome].
    assert (∀ i, (i < 16)%nat →
              ∃ rk, rks !! i = Some rk ∧ (48 ≤ length rk)%nat) as Hkeys.
    { intros i Hi.
      destruct (rks !! i) as [rk|] eqn:Hrk.
      - destruct (decide (48 ≤ length rk)%nat); [by eauto|]. exfalso.
        rewrite (for_loop_None _ 16 0 _ i) in Hsome;
          [by destruct Hsome|lia|].
        intros st. apply encrypt_round_None. rewrite Hrk. lia.
      - exfalso. rewrite (for_loop_None _ 16 0 _ i) in Hsome;
          [by destruct Hsome|lia|].
        intros st. apply encrypt_round_None. by rewrite Hrk. }
    split.
    + destruct (Hkeys 15%nat ltac:(lia)) as (rk & Hrk & _).
      apply lookup_lt_Some in Hrk. lia.
    + apply Forall_lookup. intros i rk Hi.
      apply lookup_take_Some in Hi as [Hi Hlt].
      destruct (Hkeys i Hlt) as (rk' & Hrk' & Hlen). congruence.
  - intros (Hblock & Hn & Hall).
    rewrite <- des_encrypt_rounds_take.
    destruct (des_encrypt_rounds_total (take 64 block) (take 48 <$> take 16 rks))
      as (ct & -> & _); [..|done].
    + rewrite length_take. lia.
    + rewrite length_fmap, length_take. lia.
    + apply Forall_fmap. eapply Forall_impl; [exact Hall|].
      intros rk Hrk. unfold compose. rewrite length_take. cbv beta in Hrk. lia.
Qed.

Lemma des_encrypt_rounds_defined_witness :
  ¬ is_Some (des_encrypt_rounds (replicate 64 false)
               (replicate 16 (replicate 47 false))).
Proof.
  intros Hsome.
  apply (des_encrypt_rounds_defined (replicate 64 false)
           (replicate 16 (replicate 47 false))) in Hsome.
  destruct Hsome as (_ & _ & Hall). apply Forall_inv in Hall.
  simpl in Hall. lia.
Defined.

(** * Further properties of the key schedule and the block transform *)

(** ** Parity bits *)

Lemma PC1_TABLE_skips_parity :
  Forall (λ t, Forall (λ i, t - 1 ≠ Z.of_nat i) parity_positions) PC1_TABLE.
Proof. repeat constructor; discriminate. Qed.

(** X8. The key schedule never looks at the parity bits: overwriting bit
    8, 16, ..., or 64 of the key (positions 7, 15, ..., 63 from 0) with any
    value changes neither the round keys nor the ciphertext. *)
Theorem parity_bits_ignored key block i b :
  i ∈ parity_positions →
  generate_round_keys (<[i:=b]> key) = generate_round_keys key ∧
  des_encrypt block (<[i:=b]> key) = des_encrypt block key ∧
  des_decrypt block (<[i:=b]> key) = des_decrypt block key.
Proof.
  intros Hi.
  assert (generate_round_keys (<[i:=b]> key) = generate_round_keys key) as Hgen.
  { unfold generate_round_keys, key_schedule, key_init.
    assert (apply_permutation (<[i:=b]> key) PC1_TABLE 56
            = apply_permutation key PC1_TABLE 56) as ->; [|done].
    rewrite !apply_permutation_mapM. apply mapM_ext. intros k.
    unfold permuted_bit. destruct (PC1_TABLE !! k) as [t|] eqn:Hk; [|done].
    cbn [mbind option_bind]. unfold vec_get.
    destruct (Z.leb_spec 0 (t - 1)); [|done].
    apply list_lookup_insert_ne.
    pose proof (Forall_lookup_1 _ _ _ _ PC1_TABLE_skips_parity Hk) as Hskip.
    cbv beta in Hskip. rewrite Forall_forall in Hskip.
    specialize (Hskip i Hi). lia. }
  split; [done|]. unfold des_encrypt, des_decrypt. by rewrite Hgen.
Qed.

Lemma parity_bits_ignored_witness :
  des_encrypt (bits_of_Z 64 0x0123456789ABCDEF)
              (<[7%nat:=true]> (bits_of_Z 64 0x133457799BBCDFF1))
  = des_encrypt (bits_of_Z 64 0x0123456789ABCDEF)
                (bits_of_Z 64 0x133457799BBCDFF1).
Proof.
  apply (parity_bits_ignored (bits_of_Z 64 0x133457799BBCDFF1)
           (bits_of_Z 64 0x0123456789ABCDEF) 7 true).
  apply list_elem_of_In. simpl. left. reflexivity.
Defined.

(** ** Encryption as a bijection of 64-bit blocks *)

Lemma generate_round_keys_64 key :
  length key = 64%nat →
  ∃ rks, generate_round_keys key = Some rks ∧ length rks = 16%nat ∧
         Forall (λ rk, (48 ≤ length rk)%nat) rks.
Proof.
  intros Hk.
  destruct (key_schedule_64 key Hk)
    as (st0 & st & _ & Hks & _ & _ & _ & _ & Hlen & Hall).
  exists (round_keys st). unfold generate_round_keys. rewrite Hks.
  split; [done|]. split; [done|].
  eapply Forall_impl; [exact Hall|]. simpl. lia.
Qed.

(** X9. For every 64-bit block and 64-bit key, decryption yields a 64-bit
    block, and encrypting that block under the same key gives the original
    block back: encrypt-of-decrypt is the identity as well. *)
Theorem encrypt_of_decrypt block key :
  length block = 64%nat → length key = 64%nat →
  ∃ pt, des_decrypt block key = Some pt ∧ length pt = 64%nat ∧
        des_encrypt pt key = Some block.
Proof.
  intros Hb Hk.
  destruct (generate_round_keys_64 key Hk) as (rks & Hgen & Hlen & Hall).
  unfold des_decrypt, des_encrypt. rewrite Hgen. cbn [mbind option_bind].
  rewrite des_decrypt_rounds_encrypt.
  destruct (des_encrypt_rounds_total block (reverse rks)) as (pt & Hpt & Hptlen);
    [done|by rewrite length_reverse|by apply Forall_reverse|].
  exists pt. split; [done|]. split; [done|].
  rewrite <- (reverse_involutive rks).
  apply des_encrypt_rounds_reverse; [done|by rewrite length_reverse|done].
Qed.

Lemma encrypt_of_decrypt_witness :
  ∃ pt, des_decrypt (bits_of_Z 64 0x85E813540F0AB405)
                    (bits_of_Z 64 0x133457799BBCDFF1) = Some pt ∧
        length pt = 64%nat ∧
        des_encrypt pt (bits_of_Z 64 0x133457799BBCDFF1)
        = Some (bits_of_Z 64 0x85E813540F0AB405).
Proof.
  apply (encrypt_of_decrypt (bits_of_Z 64 0x85E813540F0AB405)
           (bits_of_Z 64 0x133457799BBCDFF1)); reflexivity.
Defined.

(** X10. Under a 64-bit key, encryption maps 64-bit blocks to 64-bit
    blocks and never maps two different blocks to the same ciphertext. *)
Theorem des_encrypt_injective key b1 b2 :
  length key = 64%nat → length b1 = 64%nat → length b2 = 64%nat →
  (∃ ct, des_encrypt b1 key = Some ct ∧ length ct = 64%nat) ∧
  (des_encrypt b1 key = des_encrypt b2 key → b1 = b2).
Proof.
  intros Hk H1 H2.
  destruct (generate_round_keys_64 key Hk) as (rks & Hgen & Hlen & Hall).
  unfold des_encrypt. rewrite Hgen. cbn [mbind option_bind].
  destruct (des_encrypt_rounds_total b1 rks H1 Hlen Hall) as (ct1 & Hct1 & Hl1).
  destruct (des_encrypt_rounds_total b2 rks H2 Hlen Hall) as (ct2 & Hct2 & Hl2).
  split; [by eauto|]. rewrite Hct1, Hct2. intros [= <-].
  pose proof (des_encrypt_rounds_reverse _ _ _ H1 Hlen Hct1) as Hb1.
  pose proof (des_encrypt_rounds_reverse _ _ _ H2 Hlen Hct2) as Hb2.
  congruence.
Qed.

Lemma des_encrypt_injective_witness :
  length (replicate 64 true) = 64%nat ∧
  des_encrypt (replicate 64 false) (replicate 64 true)
  ≠ des_encrypt (replicate 64 true) (replicate 64 true).
Proof.
  split; [reflexivity|]. intros Heq.
  apply (des_encrypt_injective (replicate 64 true) (replicate 64 false)
           (replicate 64 true)) in Heq; [discriminate Heq|reflexivity..].
Defined.

(** ** Weak keys *)




(** ** Complementation *)

Lemma mapM_fmap_option {A B C} (f : A → option B) (g : B → C) (l : list A) :
  mapM (λ x, g <$> f x) l = fmap g <$> mapM f l.
Proof.
  induction l as [|x l IH]; [done|]. cbn [mapM]. rewrite IH.
  destruct (f x); simpl; [|done]. by destruct (mapM f l).
Qed.

Lemma apply_permutation_complement input table n :
  apply_permutation (complement input) table n
  = complement <$> apply_permutation input table n.
Proof.
  rewrite !apply_permutation_mapM. unfold complement at 2.
  rewrite <- mapM_fmap_option. apply mapM_ext. intros i.
  unfold permuted_bit. destruct (table !! i) as [t|]; [|done].
  cbn [mbind option_bind]. unfold vec_get, complement.
  destruct (Z.leb_spec 0 (t - 1)); [|done]. apply list_lookup_fmap.
Qed.

Lemma xor_bits_complement_both a b :
  xor_bits (complement a) (complement b) = xor_bits a b.
Proof.
  rewrite !xor_bits_mapM. unfold complement. rewrite length_fmap.
  apply mapM_ext. intros i. unfold xor_bit. rewrite !list_lookup_fmap.
  destruct (a !! i) as [x|]; [|done]. destruct (b !! i) as [y|]; [|done].
  simpl. by destruct x, y.
Qed.

Lemma xor_bits_complement_left a b :
  xor_bits (complement a) b = complement <$> xor_bits a b.
Proof.
  rewrite !xor_bits_mapM. unfold complement. rewrite length_fmap.
  rewrite <- mapM_fmap_option.
  apply mapM_ext. intros i. unfold xor_bit. rewrite !list_lookup_fmap.
  destruct (a !! i) as [x|]; [|done]. destruct (b !! i) as [y|]; [|done].
  simpl. by destruct x, y.
Qed.

Lemma feistel_step_complement rk st :
  feistel_step (complement rk) (complement_pair st)
  = complement_pair <$> feistel_step rk st.
Proof.
  unfold feistel_step, round_function, complement_pair. cbn [fst snd].
  rewrite apply_permutation_complement.
  destruct (apply_permutation st.2 E_TABLE 48) as [e|]; simpl; [|done].
  rewrite xor_bits_complement_both.
  destruct (xor_bits e rk) as [x|]; simpl; [|done].
  destruct (s_box_substitution x) as [s|]; simpl; [|done].
  destruct (apply_permutation s P_TABLE 32) as [p|]; simpl; [|done].
  rewrite xor_bits_complement_left. by destruct (xor_bits st.1 p).
Qed.

Lemma feistel_rounds_complement rks : ∀ st,
  feistel_rounds (complement <$> rks) (complement_pair st)
  = complement_pair <$> feistel_rounds rks st.
Proof.
  induction rks as [|rk rks IH]; intros st; [done|].
  cbn [fmap list_fmap feistel_rounds]. rewrite feistel_step_complement.
  destruct (feistel_step rk st) as [st'|]; simpl; [|done]. apply IH.
Qed.

Lemma des_encrypt_rounds_complement block rks :
  length block = 64%nat → length rks = 16%nat →
  des_encrypt_rounds (complement block) (complement <$> rks)
  = complement <$> des_encrypt_rounds block rks.
Proof.
  intros Hb Hrks.
  destruct (des_encrypt_rounds_64 block rks Hb Hrks) as (b1 & Hip & Hb1 & ->).
  destruct (des_encrypt_rounds_64 (complement block) (complement <$> rks))
    as (c1 & Hip' & _ & ->);
    [by unfold complement; rewrite length_fmap|by rewrite length_fmap|].
  rewrite apply_permutation_complement, Hip in Hip'. injection Hip' as <-.
  replace (take 32 (complement b1), drop 32 (complement b1))
    with (complement_pair (take 32 b1, drop 32 b1))
    by (unfold complement_pair, complement; cbn [fst snd];
        by rewrite fmap_take, fmap_drop).
  rewrite feistel_rounds_complement.
  destruct (feistel_rounds rks _) as [[l r]|]; simpl; [|done].
  unfold complement_pair. cbn [fst snd].
  replace (complement r ++ complement l) with (complement (r ++ l))
    by (unfold complement; by rewrite fmap_app).
  apply apply_permutation_complement.
Qed.

Lemma generate_round_keys_complement key :
  length key = 64%nat →
  generate_round_keys (complement key)
  = fmap (M:=list) complement <$> generate_round_keys key.
Proof. intros H. explode key H. vm_compute. reflexivity. Qed.

(** X12. Complementation: for 64-bit blocks and keys, encrypting the
    bitwise complement of a block under the bitwise complement of the key
    gives the bitwise complement of the original ciphertext. *)
Theorem des_complementation block key :
  length block = 64%nat → length key = 64%nat →
  des_encrypt (complement block) (complement key)
  = complement <$> des_encrypt block key.
Proof.
  intros Hb Hk. unfold des_encrypt.
  rewrite generate_round_keys_complement by done.
  destruct (generate_round_keys_64 key Hk) as (rks & -> & Hlen & _).
  cbn [fmap option_fmap option_map mbind option_bind].
  by apply des_encrypt_rounds_complement.
Qed.

Lemma des_complementation_witness :
  des_encrypt (complement (bits_of_Z 64 0x0123456789ABCDEF))
              (complement (bits_of_Z 64 0x133457799BBCDFF1))
  = complement <$> des_encrypt (bits_of_Z 64 0x0123456789ABCDEF)
                               (bits_of_Z 64 0x133457799BBCDFF1).
Proof.
  apply (des_complementation (bits_of_Z 64 0x0123456789ABCDEF)
           (bits_of_Z 64 0x133457799BBCDFF1)); reflexivity.
Defined.

(** * Further properties of the substitution step *)

Lemma vec_range_take {A} (v : list A) m lo hi :
  (hi ≤ m)%nat → (m ≤ length v)%nat →
  vec_range (take m v) lo hi = vec_range v lo hi.
Proof.
  intros Hhi Hm. unfold vec_range. rewrite length_take.
  destruct (Nat.leb_spec lo hi); cbn [andb]; [|done].
  destruct (Nat.leb_spec hi (m `min` length v)),
           (Nat.leb_spec hi (length v)); try lia.
  cbn [andb]. f_equal. apply list_eq. intros k.
  destruct (decide (k < hi - lo)%nat).
  - by rewrite !lookup_take_lt, !lookup_drop, lookup_take_lt by lia.
  - by rewrite !lookup_take_ge by lia.
Qed.

Lemma spec_substitute_take input :
  spec_substitute (take 48 input) = spec_substitute input.
Proof.
  unfold spec_substitute. f_equal. apply map_ext_in. intros j Hj.
  apply in_seq in Hj. f_equal. unfold spec_chunk.
  apply list_eq. intros k. destruct (decide (k < 6)%nat).
  - rewrite !lookup_take_lt, !lookup_drop by lia.
    apply lookup_take_lt. lia.
  - by rewrite !lookup_take_ge by lia.
Qed.

(** X13. [s_box_substitution] has a defined result exactly for inputs of
    at least 48 bits; the result is then the specified substitution of the
    first 48 bits (further bits are never read) and always has 32 bits. *)
Theorem s_box_substitution_defined input :
  s_box_substitution input
  = (if (48 <=? length input)%nat
     then Some (spec_substitute (take 48 input)) else None) ∧
  length (spec_substitute (take 48 input)) = 32%nat.
Proof.
  split; [|reflexivity].
  destruct (Nat.leb_spec 48 (length input)) as [Hlong|Hshort].
  - rewrite <- (s_box_substitution_48 (take 48 input))
      by (rewrite length_take; lia).
    unfold s_box_substitution. apply for_loop_ext. intros i out Hi.
    unfold s_box_step. by rewrite vec_range_take by lia.
  - unfold s_box_substitution. apply (for_loop_None _ 8 0 _ 7); [lia|].
    intros out. unfold s_box_step, vec_range.
    destruct (Nat.leb_spec ((7 + 1) * 6) (length input)); [lia|].
    by rewrite andb_false_r.
Qed.

(** X14. Each row of each S-box holds sixteen different values: for two
    6-bit chunks with the same outer bits (bit 0 and bit 5, which select
    the row), equal table entries force equal chunks. *)
Theorem s_box_rows_injective i c1 c2 :
  (i < 8)%nat → length c1 = 6%nat → length c2 = 6%nat →
  c1 !! 0%nat = c2 !! 0%nat → c1 !! 5%nat = c2 !! 5%nat →
  s_box_value i c1 = s_box_value i c2 →
  c1 = c2.
Proof.
  intros Hi H1 H2 H0 H5. explode c1 H1. explode c2 H2.
  cbn in H0, H5. simplify_eq.
  destruct i as [|[|[|[|[|[|[|[|i]]]]]]]]; [..|lia];
    repeat match goal with b : bool |- _ => destruct b end;
    intros Hv; first [reflexivity | vm_compute in Hv; discriminate Hv].
Qed.

Lemma s_box_rows_injective_witness :
  s_box_value 0 [true; false; true; true; false; false]
  ≠ s_box_value 0 [true; true; true; true; false; false].
Proof.
  intros Heq.
  apply (s_box_rows_injective 0 [true; false; true; true; false; false]
           [true; true; true; true; false; false]) in Heq;
    [discriminate Heq|lia|reflexivity..].
Defined.

(** * The functions on strings *)

(** X15. As the source stands, [string_to_bits] returns an empty vector
    for every text.  So for every key and every text the key schedule makes
    PC-1 read outside the (empty) key vector, and no call of
    [generate_round_keys], [des_encrypt] or [des_decrypt] on strings has a
    defined result. *)
Theorem text_functions_undefined plaintext key_hex :
  Text.string_to_bits plaintext = [] ∧
  Text.generate_round_keys key_hex = None ∧
  Text.des_encrypt plaintext key_hex = None ∧
  Text.des_decrypt plaintext key_hex = None.
Proof. repeat split. Qed.

(** * The number-theoretic functions of rsa.cpp *)

(** ** Machine arithmetic *)

Lemma fits_32 z : fits 32 z = true ↔ -2147483648 ≤ z < 2147483648.
Proof.
  unfold fits. change (2 ^ (32 - 1)) with 2147483648.
  rewrite andb_true_iff, Z.leb_le, Z.ltb_lt. done.
Qed.

Lemma fits_64 z :
  fits 64 z = true ↔ -9223372036854775808 ≤ z < 9223372036854775808.
Proof.
  unfold fits. change (2 ^ (64 - 1)) with 9223372036854775808.
  rewrite andb_true_iff, Z.leb_le, Z.ltb_lt. done.
Qed.

Lemma checked_32 z :
  -2147483648 ≤ z < 2147483648 → checked 32 z = Some z.
Proof. intros H. unfold checked. by rewrite (proj2 (fits_32 z) H). Qed.

Lemma checked_64 z :
  -9223372036854775808 ≤ z < 9223372036854775808 → checked 64 z = Some z.
Proof. intros H. unfold checked. by rewrite (proj2 (fits_64 z) H). Qed.

Lemma quot_abs_le a b : b ≠ 0 → Z.abs (Z.quot a b) ≤ Z.abs a.
Proof.
  intros Hb. rewrite <- Z.quot_abs by done.
  apply Z.quot_le_upper_bound; [lia|]. nia.
Qed.

Lemma s_rem_32 a b :
  b ≠ 0 → Z.abs a < 2147483648 → s_rem 32 a b = Some (Z.rem a b).
Proof.
  intros Hb Ha. unfold s_rem. destruct (Z.eqb_spec b 0); [done|].
  pose proof (quot_abs_le a b Hb).
  by rewrite (proj2 (fits_32 (Z.quot a b))) by lia.
Qed.

Lemma s_rem_64 a b :
  b ≠ 0 → Z.abs a < 9223372036854775808 → s_rem 64 a b = Some (Z.rem a b).
Proof.
  intros Hb Ha. unfold s_rem. destruct (Z.eqb_spec b 0); [done|].
  pose proof (quot_abs_le a b Hb).
  by rewrite (proj2 (fits_64 (Z.quot a b))) by lia.
Qed.

(** ** The loops, one iteration at a time *)

Lemma gcd_step a b :
  gcd a b = if decide (b = 0) then Some a
            else r ← s_rem 32 a b; gcd b r.
Proof.
  funelim (gcd a b); destruct (decide (b = 0)); try done;
    match goal with H : s_rem _ _ _ = _ |- _ => by rewrite H end.
Qed.

Lemma mod_exp_loop_step result base exp modulus :
  mod_exp_loop result base exp modulus
  = if decide (0 < exp)
    then '(result', base', exp') ← mod_exp_body result base exp modulus;
         mod_exp_loop result' base' exp' modulus
    else Some result.
Proof.
  funelim (mod_exp_loop result base exp modulus); destruct (decide (0 < exp));
    try done;
    match goal with H : mod_exp_body _ _ _ _ = _ |- _ => by rewrite H end.
Qed.

Lemma mod_inverse_loop_step t newt r newr :
  mod_inverse_loop t newt r newr
  = if decide (newr = 0) then Some (t, newt, r, newr)
    else '(t', newt', r', newr') ← mod_inverse_body t newt r newr;
         mod_inverse_loop t' newt' r' newr'.
Proof.
  funelim (mod_inverse_loop t newt r newr); destruct (decide (newr = 0));
    try done;
    match goal with H : mod_inverse_body _ _ _ _ = _ |- _ => by rewrite H end.
Qed.

(** ** [gcd] *)

Lemma gcd_loop_spec (n : nat) : ∀ a b,
  (Z.abs_nat b < n)%nat →
  Z.abs a < 2147483648 → Z.abs b < 2147483648 →
  ∃ g, gcd a b = Some g ∧ Z.abs g = Z.gcd a b ∧
       (0 ≤ a → 0 ≤ b → 0 ≤ g) ∧ (a ≤ 0 → b ≤ 0 → g ≤ 0).
Proof.
  induction n as [|n IH]; intros a b Hn Ha Hb; [lia|].
  rewrite gcd_step. destruct (decide (b = 0)) as [->|Hb0].
  - exists a. rewrite Z.gcd_0_r. repeat split; done.
  - rewrite s_rem_32 by done. cbn [mbind option_bind].
    pose proof (Z.rem_bound_abs a b Hb0) as Hrem.
    destruct (IH b (Z.rem a b)) as (g & Hg & Habs & Hpos & Hneg); [lia..|].
    exists g. split; [done|]. split.
    { rewrite Habs, Z.gcd_comm, Z.gcd_rem by done. apply Z.gcd_comm. }
    split.
    + intros Ha0 Hb1. apply Hpos; [done|]. by apply Z.rem_nonneg.
    + intros Ha0 Hb1. apply Hneg; [done|]. by apply Z.rem_nonpos.
Qed.

(** X16. For arguments other than the most negative [int], [gcd] returns
    a value whose absolute value is the greatest common divisor.  The
    result is non-negative when both arguments are, and non-positive when
    both arguments are non-positive: the gcd of two negative numbers comes
    out negated. *)
Theorem gcd_correct a b :
  Z.abs a < 2 ^ 31 → Z.abs b < 2 ^ 31 →
  ∃ g, gcd a b = Some g ∧ Z.abs g = Z.gcd a b ∧
       (0 ≤ a → 0 ≤ b → g = Z.gcd a b) ∧
       (a ≤ 0 → b ≤ 0 → g = - Z.gcd a b).
Proof.
  intros Ha Hb. change (2 ^ 31) with 2147483648 in *.
  destruct (gcd_loop_spec (S (Z.abs_nat b)) a b) as (g & Hg & Habs & Hpos & Hneg);
    [lia|done..|].
  exists g. split; [done|]. split; [done|]. split.
  - intros Ha0 Hb0. specialize (Hpos Ha0 Hb0). lia.
  - intros Ha0 Hb0. specialize (Hneg Ha0 Hb0). lia.
Qed.

Lemma gcd_correct_witness :
  ∃ g, gcd (-12) (-18) = Some g ∧ Z.abs g = Z.gcd (-12) (-18) ∧
       (0 ≤ -12 → 0 ≤ -18 → g = Z.gcd (-12) (-18)) ∧
       (-12 ≤ 0 → -18 ≤ 0 → g = - Z.gcd (-12) (-18)).
Proof. apply (gcd_correct (-12) (-18)); simpl; lia. Defined.

(** ** [mod_exp] *)

Lemma mod_exp_body_small result base exp m :
  0 < exp → 1 < m ≤ 2147483648 → 0 ≤ result < m → 0 ≤ base < m →
  mod_exp_body result base exp m
  = Some ((if exp mod 2 =? 1 then (result * base) mod m else result),
          (base * base) mod m, exp / 2).
Proof.
  intros Hexp Hm Hr Hb. unfold mod_exp_body, s_mul.
  rewrite Z.rem_mod_nonneg by lia.
  assert (0 ≤ result * base < 4611686018427387904) as Hrb by nia.
  assert (0 ≤ base * base < 4611686018427387904) as Hbb by nia.
  rewrite Z.shiftr_div_pow2 by lia. change (2 ^ 1) with 2.
  destruct (exp mod 2 =? 1); cbn [mbind option_bind].
  - rewrite (checked_64 (result * base)) by lia. cbn [mbind option_bind].
    rewrite s_rem_64 by lia. cbn [mbind option_bind].
    rewrite (checked_64 (base * base)) by lia. cbn [mbind option_bind].
    rewrite s_rem_64 by lia. cbn [mbind option_bind].
    by rewrite !Z.rem_mod_nonneg by lia.
  - rewrite (checked_64 (base * base)) by lia. cbn [mbind option_bind].
    rewrite s_rem_64 by lia. cbn [mbind option_bind].
    by rewrite !Z.rem_mod_nonneg by lia.
Qed.

Lemma pow_halve base exp m :
  0 < exp → 0 < m →
  (base ^ exp) mod m
  = ((if exp mod 2 =? 1 then base else 1) * (base * base mod m) ^ (exp / 2)) mod m.
Proof.
  intros Hexp Hm.
  pose proof (Z.mod_pos_bound exp 2 ltac:(lia)) as Hbit.
  assert (0 ≤ exp / 2) as Hq by (apply Z.div_pos; lia).
  assert (base ^ exp
          = (if exp mod 2 =? 1 then base else 1) * (base * base) ^ (exp / 2))
    as ->.
  { rewrite (Z.div_mod exp 2) at 1 by lia.
    rewrite Z.pow_add_r, Z.pow_mul_r, Z.pow_2_r by lia.
    destruct (Z.eqb_spec (exp mod 2) 1) as [->|Hne].
    - rewrite Z.pow_1_r. ring.
    - replace (exp mod 2) with 0 by lia. rewrite Z.pow_0_r. ring. }
  rewrite <- (Z.mul_mod_idemp_r _ ((base * base mod m) ^ (exp / 2))) by lia.
  rewrite Z.mod_pow_l. by rewrite Z.mul_mod_idemp_r by lia.
Qed.

Lemma mod_exp_loop_spec (n : nat) m : ∀ result base exp,
  (Z.to_nat exp < n)%nat → 0 ≤ exp →
  1 < m ≤ 2147483648 → 0 ≤ result < m → 0 ≤ base < m →
  mod_exp_loop result base exp m = Some ((result * base ^ exp) mod m).
Proof.
  induction n as [|n IH]; intros result base exp Hn Hexp Hm Hr Hb; [lia|].
  rewrite mod_exp_loop_step. destruct (decide (0 < exp)) as [Hpos|Hzero].
  - rewrite mod_exp_body_small by done. cbn [mbind option_bind].
    assert (0 ≤ exp / 2 < exp) as Hhalf.
    { split; [apply Z.div_pos; lia|apply Z.div_lt; lia]. }
    rewrite IH; [|lia|lia|done| |apply Z.mod_pos_bound; lia].
    + f_equal. symmetry.
      rewrite <- (Z.mul_mod_idemp_r result (base ^ exp)) by lia.
      rewrite (pow_halve base exp m) by lia.
      rewrite Z.mul_mod_idemp_r by lia.
      destruct (exp mod 2 =? 1).
      * rewrite Z.mul_mod_idemp_l by lia. f_equal. ring.
      * f_equal. ring.
    + destruct (exp mod 2 =? 1); [apply Z.mod_pos_bound; lia|done].
  - replace exp with 0 by lia. rewrite Z.pow_0_r, Z.mul_1_r.
    by rewrite Z.mod_small.
Qed.

Lemma mod_exp_spec base exp m :
  0 ≤ base < 9223372036854775808 → 0 ≤ exp → 1 < m ≤ 2147483648 →
  mod_exp base exp m = Some (base ^ exp mod m).
Proof.
  intros Hb Hexp Hm.
  unfold mod_exp. rewrite s_rem_64 by lia. cbn [mbind option_bind].
  rewrite Z.rem_mod_nonneg by lia.
  rewrite (mod_exp_loop_spec (S (Z.to_nat exp)));
    [|lia|done|done|lia|apply Z.mod_pos_bound; lia].
  f_equal. rewrite Z.mul_1_l. symmetry. apply Zpower_mod. lia.
Qed.

(** X17. For a non-negative base and exponent and a modulus between 2 and
    2^31, [mod_exp] returns base^exp modulo the modulus; no intermediate
    product overflows [long long]. *)
Theorem mod_exp_correct base exp m :
  0 ≤ base < 2 ^ 63 → 0 ≤ exp → 1 < m ≤ 2 ^ 31 →
  mod_exp base exp m = Some (base ^ exp mod m).
Proof. apply mod_exp_spec. Qed.

Lemma mod_exp_correct_witness :
  mod_exp 65 17 3233 = Some (65 ^ 17 mod 3233).
Proof. apply (mod_exp_correct 65 17 3233); lia. Defined.



(** X19. The limit of [mod_exp]: when the reduced base is so large that its
    square does not fit in a [long long], the multiplication in the first
    iteration overflows and there is no defined result. *)
Theorem mod_exp_overflow base exp m :
  0 ≤ base < m → m < 2 ^ 63 → 0 < exp → 2 ^ 63 ≤ base * base →
  mod_exp base exp m = None.
Proof.
  intros Hb Hm Hexp Hsq. change (2 ^ 63) with 9223372036854775808 in *.
  unfold mod_exp. rewrite s_rem_64 by lia. cbn [mbind option_bind].
  rewrite Z.rem_small by done.
  rewrite mod_exp_loop_step. destruct (decide (0 < exp)); [|lia].
  assert (mod_exp_body 1 base exp m = None) as ->; [|done].
  unfold mod_exp_body.
  assert (s_mul 64 base base = None) as Hover.
  { unfold s_mul, checked.
    destruct (fits 64 (base * base)) eqn:Hfit; [|done].
    apply fits_64 in Hfit. lia. }
  destruct (Z.rem exp 2 =? 1); cbn [mbind option_bind].
  - assert (s_mul 64 1 base = Some base) as ->
      by (unfold s_mul; rewrite Z.mul_1_l; apply checked_64; lia).
    cbn [mbind option_bind]. rewrite s_rem_64 by lia.
    cbn [mbind option_bind]. by rewrite Hover.
  - by rewrite Hover.
Qed.

Lemma mod_exp_overflow_witness :
  mod_exp (2 ^ 32) 3 (2 ^ 62) = None.
Proof. apply (mod_exp_overflow (2 ^ 32) 3 (2 ^ 62)); simpl; lia. Defined.

(** ** [mod_inverse] *)

Lemma mod_inverse_body_spec e phi t newt r newr :
  phi < 2147483648 → newr ≠ 0 →
  inverse_invariant e phi t newt r newr →
  let q := r / newr in
  mod_inverse_body t newt r newr
  = Some (newt, t - q * newt, newr, r mod newr) ∧
  inverse_invariant e phi newt (t - q * newt) newr (r mod newr).
Proof.
  intros Hphi Hnewr (Hr & Hrphi & Htr & Hsign & Hdet & Ht & Hnewt & Hgcd) q.
  assert (0 < newr) as Hpos by lia.
  pose proof (Z.div_mod r newr ltac:(lia)) as Hdiv.
  pose proof (Z.mod_pos_bound r newr Hpos) as Hmod.
  assert (0 ≤ q) as Hq by (apply Z.div_pos; lia).
  fold q in Hdiv.
  assert (0 ≤ q * newr ≤ r) as Hqr by (split; [apply Z.mul_nonneg_nonneg|]; lia).
  assert (q ≤ r) as Hqle.
  { apply Z.le_trans with (q * newr); [|lia].
    rewrite <- (Z.mul_1_r q) at 1. apply Z.mul_le_mono_nonneg_l; lia. }
  assert (Z.abs (q * newt) = q * Z.abs newt) as Habsq
    by (rewrite Z.abs_mul, (Z.abs_eq q); done).
  assert (Z.abs (t - q * newt) = Z.abs t + q * Z.abs newt) as Habs.
  { rewrite <- Habsq. destruct Hsign as [[? ?]|[? ?]].
    - assert (0 ≤ q * newt) by (apply Z.mul_nonneg_nonneg; lia). lia.
    - assert (q * newt ≤ 0) by (apply Z.mul_nonneg_nonpos; lia). lia. }
  set (A := Z.abs newt) in *. set (B := Z.abs t) in *.
  assert (0 ≤ A) as HA by apply Z.abs_nonneg.
  assert (0 ≤ B) as HB by apply Z.abs_nonneg.
  assert ((B + q * A) * newr + A * (r mod newr) = phi) as Hdet'.
  { rewrite <- Hdet. rewrite Hdiv at 2. ring. }
  assert (0 ≤ A * (r mod newr)) as H1 by (apply Z.mul_nonneg_nonneg; lia).
  assert (0 ≤ q * A) as H2 by (apply Z.mul_nonneg_nonneg; lia).
  assert (B + q * A ≤ phi) as Hbound.
  { apply Z.le_trans with ((B + q * A) * newr); [|lia].
    rewrite <- (Z.mul_1_r (B + q * A)) at 1.
    apply Z.mul_le_mono_nonneg_l; lia. }
  assert (A * newr ≤ phi) as Hbound2.
  { assert (0 ≤ B * newr) by (apply Z.mul_nonneg_nonneg; lia).
    assert (A * newr ≤ A * r) by (apply Z.mul_le_mono_nonneg_l; lia). lia. }
  split.
  - unfold mod_inverse_body, s_div, s_mul, s_sub.
    destruct (Z.eqb_spec newr 0); [done|].
    rewrite Z.quot_div_nonneg by lia. fold q.
    rewrite (checked_32 q) by lia. cbn [mbind option_bind].
    rewrite (checked_32 (q * newt)) by lia. cbn [mbind option_bind].
    rewrite (checked_32 (t - q * newt)) by lia. cbn [mbind option_bind].
    rewrite (checked_32 (q * newr)) by lia. cbn [mbind option_bind].
    rewrite (checked_32 (r - q * newr)) by lia. cbn [mbind option_bind].
    do 3 f_equal. lia.
  - split; [lia|]. split; [lia|]. split; [done|].
    split.
    { destruct Hsign as [[? ?]|[? ?]].
      - right. assert (0 ≤ q * newt) by (apply Z.mul_nonneg_nonneg; lia). lia.
      - left. assert (q * newt ≤ 0) by (apply Z.mul_nonneg_nonpos; lia). lia. }
    split; [by rewrite Habs|]. split; [done|]. split.
    + replace ((t - q * newt) * e - r mod newr)
        with ((t * e - r) - q * (newt * e - newr)) by lia.
      apply Z.divide_sub_r; [done|]. by apply Z.divide_mul_r.
    + rewrite <- Hgcd, (Z.gcd_comm r newr). apply Z.gcd_mod_r.
Qed.

Lemma mod_inverse_loop_spec e phi (n : nat) : ∀ t newt r newr,
  (Z.abs_nat newr < n)%nat → phi < 2147483648 →
  inverse_invariant e phi t newt r newr →
  ∃ t' newt' r',
    mod_inverse_loop t newt r newr = Some (t', newt', r', 0) ∧
    inverse_invariant e phi t' newt' r' 0.
Proof.
  induction n as [|n IH]; intros t newt r newr Hn Hphi Hinv; [lia|].
  rewrite mod_inverse_loop_step. destruct (decide (newr = 0)) as [->|Hne].
  - by exists t, newt, r.
  - destruct (mod_inverse_body_spec e phi t newt r newr Hphi Hne Hinv)
      as [-> Hinv'].
    cbn [mbind option_bind]. apply IH; [|done|done].
    destruct Hinv as [Hr _].
    pose proof (Z.mod_pos_bound r newr ltac:(lia)). lia.
Qed.

(** X20. [mod_inverse] on [0 ≤ e < phi < 2^31]: when [e] and [phi] are
    coprime (and [phi > 1]) it returns the inverse [d] of [e] modulo [phi],
    with [0 ≤ d < phi] and [e * d mod phi = 1]; when they are not coprime it
    returns -1.  The value -1 is therefore never a valid inverse, and no
    intermediate value overflows [int]. *)
Theorem mod_inverse_correct e phi :
  0 ≤ e < phi → 1 < phi < 2 ^ 31 →
  ∃ d, mod_inverse e phi = Some d ∧
       (Z.gcd e phi = 1 → 0 ≤ d < phi ∧ (e * d) mod phi = 1) ∧
       (Z.gcd e phi ≠ 1 → d = -1).
Proof.
  intros He Hphi. change (2 ^ 31) with 2147483648 in Hphi.
  assert (inverse_invariant e phi 0 1 phi e) as Hinit.
  { split; [lia|]. split; [lia|]. split; [lia|]. split; [lia|]. split; [lia|].
    split; [exists (-1); lia|]. split; [exists 0; lia|done]. }
  destruct (mod_inverse_loop_spec e phi (S (Z.abs_nat e)) 0 1 phi e)
    as (t & newt & r & Hloop & Hr & Hrphi & Htr & Hsign & Hdet & Ht & _ & Hgcd);
    [lia|lia|done|].
  unfold mod_inverse. rewrite Hloop. cbn [mbind option_bind].
  rewrite Z.gcd_0_r, Z.abs_eq, Z.gcd_comm in Hgcd by lia.
  rewrite Z.mul_0_r, Z.add_0_r in Hdet.
  destruct (Z.ltb_spec 1 r) as [Hbig|Hone].
  - exists (-1). split; [done|]. split; [lia|done].
  - assert (r = 1) as -> by lia.
    assert (Z.abs t ≤ phi) as Hbound by lia.
    assert (∀ d, (phi | d * e - 1) → (e * d) mod phi = 1) as Hmod.
    { intros d [k Hk]. replace (e * d) with (1 + k * phi) by lia.
      rewrite Z.mod_add by lia. apply Z.mod_small. lia. }
    assert (t ≠ phi ∧ t ≠ - phi) as [Hne1 Hne2].
    { split; intros ->; destruct Ht as [k Hk].
      - assert (phi * (e - k) = 1) as H1 by lia.
        apply Z.mul_eq_1 in H1. lia.
      - assert (phi * (- e - k) = 1) as H1 by lia.
        apply Z.mul_eq_1 in H1. lia. }
    destruct (Z.ltb_spec t 0) as [Hneg|Hpos].
    + unfold s_add. rewrite checked_32 by lia.
      exists (t + phi). split; [done|]. split; [|lia].
      intros _. split; [lia|]. apply Hmod.
      destruct Ht as [k Hk]. exists (k + e). lia.
    + exists t. split; [done|]. split; [|lia].
      intros _. split; [lia|]. by apply Hmod.
Qed.

Lemma mod_inverse_correct_witness :
  ∃ d, mod_inverse 17 3120 = Some d ∧
       (Z.gcd 17 3120 = 1 → 0 ≤ d < 3120 ∧ (17 * d) mod 3120 = 1) ∧
       (Z.gcd 17 3120 ≠ 1 → d = -1).
Proof. apply (mod_inverse_correct 17 3120); simpl; lia. Defined.

(** ** [encrypt_string] and [decrypt_string] *)

Lemma main_key_char ch :
  seven_bit ch →
  ∃ c, mod_exp (char_to_int ch) 17 3233 = Some c ∧
       (m ← mod_exp c 2753 3233; Some (int_to_char m)) = Some ch.
Proof.
  destruct ch as [b0 b1 b2 b3 b4 b5 b6 b7]. unfold seven_bit.
  destruct b7.
  { intros H. exfalso. destruct b0, b1, b2, b3, b4, b5, b6; vm_compute in H;
      discriminate H. }
  intros _. destruct b0, b1, b2, b3, b4, b5, b6;
    (eexists; split; [vm_compute; reflexivity|vm_compute; reflexivity]).
Qed.

Lemma main_key_chars l :
  Forall seven_bit l →
  ∃ enc,
    mapM (λ ch, let m := char_to_int ch in mod_exp m 17 3233) l = Some enc ∧
    length enc = length l ∧
    mapM (λ c, m ← mod_exp c 2753 3233; Some (int_to_char m)) enc = Some l.
Proof.
  induction 1 as [|ch l Hch _ (enc & Henc & Hlen & Hdec)].
  - by exists [].
  - destruct (main_key_char ch Hch) as (c & Hc & Hback).
    exists (c :: enc). cbn [mapM]. cbv zeta. rewrite Hc.
    cbv zeta in Henc. rewrite Henc. cbn [mbind option_bind mret option_ret].
    split; [done|]. split; [simpl; lia|].
    rewrite Hback, Hdec. done.
Qed.

(** X21. The key pair of [main]: with p = 61 and q = 53, e = 17 is coprime
    to phi = 3120 (so the search loop keeps it) and [mod_inverse] gives
    d = 2753.  Under this key pair, for every message of 7-bit ASCII
    characters [encrypt_string] produces one ciphertext number per
    character, and [decrypt_string] of the ciphertext is the message
    again. *)
Theorem main_key_round_trip message :
  Forall seven_bit (String.list_ascii_of_string message) →
  gcd 17 ((61 - 1) * (53 - 1)) = Some 1 ∧
  mod_inverse 17 ((61 - 1) * (53 - 1)) = Some 2753 ∧
  ∃ encrypted,
    encrypt_string message 17 (61 * 53) = Some encrypted ∧
    length encrypted = String.length message ∧
    decrypt_string encrypted 2753 (61 * 53) = Some message.
Proof.
  intros Hmsg. split; [vm_compute; reflexivity|].
  split; [vm_compute; reflexivity|].
  destruct (main_key_chars _ Hmsg) as (enc & Henc & Hlen & Hdec).
  exists enc. unfold encrypt_string, decrypt_string.
  change (61 * 53) with 3233.
  split; [done|]. split.
  - rewrite Hlen. clear. induction message; simpl; [done|]. by f_equal.
  - rewrite Hdec. simpl. f_equal.
    apply String.string_of_list_ascii_of_string.
Qed.

Lemma main_key_round_trip_witness :
  ∃ encrypted,
    encrypt_string "HELLO RSA!" 17 (61 * 53) = Some encrypted ∧
    length encrypted = String.length "HELLO RSA!" ∧
    decrypt_string encrypted 2753 (61 * 53) = Some "HELLO RSA!"%string.
Proof.
  apply (main_key_round_trip "HELLO RSA!").
  repeat (constructor; [vm_compute; reflexivity|]). constructor.
Defined.

Lemma char_to_int_seven_bit ch :
  seven_bit ch → char_to_int ch = Z.of_N (Ascii.N_of_ascii ch) ∧
                 0 ≤ char_to_int ch < 128.
Proof.
  unfold seven_bit, char_to_int. intros H. cbv zeta.
  destruct (Z.ltb_spec (Z.of_N (Ascii.N_of_ascii ch)) 128); lia.
Qed.

(** X22. [encrypt_string] is textbook RSA character by character: for a
    message of 7-bit ASCII characters, an exponent [e ≥ 0] and a modulus
    [1 < n ≤ 2^31] it returns, in order, the number [m^e mod n] for the
    code [m] of each character. *)
Theorem encrypt_string_correct message e n :
  Forall seven_bit (String.list_ascii_of_string message) →
  0 ≤ e → 1 < n ≤ 2 ^ 31 →
  encrypt_string message e n
  = Some (map (λ ch, Z.of_N (Ascii.N_of_ascii ch) ^ e mod n)
              (String.list_ascii_of_string message)).
Proof.
  intros Hmsg He Hn. unfold encrypt_string.
  induction Hmsg as [|ch l Hch _ IH]; [done|].
  cbn [mapM map]. cbv zeta. cbv zeta in IH. rewrite IH.
  destruct (char_to_int_seven_bit ch Hch) as [Hcode Hrange].
  rewrite mod_exp_spec by (try done; change (2 ^ 31) with 2147483648 in Hn; lia).
  by rewrite Hcode.
Qed.

Lemma encrypt_string_correct_witness :
  encrypt_string "RSA" 17 3233
  = Some (map (λ ch, Z.of_N (Ascii.N_of_ascii ch) ^ 17 mod 3233)
              (String.list_ascii_of_string "RSA")).
Proof.
  apply (encrypt_string_correct "RSA" 17 3233).
  - repeat (constructor; [vm_compute; reflexivity|]). constructor.
  - lia.
  - simpl. lia.
Defined.
